(** * XHack-BlockChain: hash anchoring on a Hedera topic and its verification

    A shallow embedding of the Express server of the repository
    ([src/test.js], with the earlier variants of the same [server.js] kept
    under [src/unnamed]) and the properties of its hashing, replay and
    reconciliation code.

    [src/test.js] is embedded whole but for [GET /create-topic]: the
    two [POST] handlers, [getHederaHashes], both [verify] handlers and
    [GET /logs]. Of the earlier variants, the [POST] handlers of
    [src/unnamed/part_002], which hash the body as it came, are embedded
    as [Naive], and its [GET /logs] as [NaiveLogs].

    Conventions of the embedding:
    - a JavaScript value is a [jsval]; an object is the list of its own
      properties in insertion order, which is the order [JSON.stringify]
      walks them in;
    - a JavaScript string is a [string] holding its UTF-8 bytes, which is
      what [crypto]'s [update] feeds to the digest;
    - numbers are the integers of the safe range, kept as [Z]; a
      sequence number is a 64-bit integer, kept as [N], and what
      [parseInt] makes of its digits is its nearest double;
    - the document store and the ledger are a [World] record threaded
      through the handlers; whether a call to one of them throws is read
      from a script of outcomes held in the world;
    - a subscription is the list of the events it delivers, in order;
      callbacks are steps of a state machine over the variables the
      closure captures. Each event is a task of its own: when a callback
      settles a promise, the handler that awaits it resumes before the
      next event, and the array it then reads is the one recorded at the
      settling;
    - the store is the part of Mongoose the handlers rely on for a body
      that is one JSON object and for identifiers that are the strings
      of ObjectIds: [create] stores one document with the schema's
      fields, [find] returns the documents, [findById] the one with
      that identifier. Casting, arrays of documents and query operators
      are not modelled. *)

From Stdlib Require Import ZArith List String Ascii Lia Bool.
From Stdlib Require Import Permutation Sorted DecimalString DecimalN DecimalZ DecimalPos.
From stdpp Require Import gmap strings sets.
Import ListNotations.

Local Open Scope string_scope.

(* ===================================================================== *)
(** * SHA-256, as [crypto.createHash("sha256")] computes it              *)
(* ===================================================================== *)

Module SHA256.
Local Open Scope Z_scope.

(** 32-bit words are integers in [0, 2^32); every operation that can
    overflow is wrapped explicitly. *)
Definition wrap (x : Z) : Z := Z.land x (Z.ones 32).
Definition add32 (x y : Z) : Z := wrap (x + y).
Definition rotr (n x : Z) : Z :=
  Z.lor (Z.shiftr x n) (wrap (Z.shiftl x (32 - n))).
Definition shr (n x : Z) : Z := Z.shiftr x n.
Definition not32 (x : Z) : Z := Z.lxor x (Z.ones 32).

Definition Ch (x y z : Z) : Z := Z.lxor (Z.land x y) (Z.land (not32 x) z).
Definition Maj (x y z : Z) : Z :=
  Z.lxor (Z.lxor (Z.land x y) (Z.land x z)) (Z.land y z).
Definition bsig0 (x : Z) : Z := Z.lxor (Z.lxor (rotr 2 x) (rotr 13 x)) (rotr 22 x).
Definition bsig1 (x : Z) : Z := Z.lxor (Z.lxor (rotr 6 x) (rotr 11 x)) (rotr 25 x).
Definition ssig0 (x : Z) : Z := Z.lxor (Z.lxor (rotr 7 x) (rotr 18 x)) (shr 3 x).
Definition ssig1 (x : Z) : Z := Z.lxor (Z.lxor (rotr 17 x) (rotr 19 x)) (shr 10 x).

(** The round constants are the first 32 fractional bits of the cube roots
    of the first 64 primes, the initial state those of the square roots of
    the first 8; both tables are computed rather than typed in. *)
Definition is_prime (n : Z) : bool :=
  (1 <? n) &&
  forallb (fun d => negb (n mod d =? 0))
          (map Z.of_nat (seq 2 (Z.to_nat n - 2))).

Definition primes64 : list Z :=
  Eval vm_compute in List.filter is_prime (map Z.of_nat (seq 2 310)).

(** Integer cube root, one bit at a time from bit 35 down. *)
Definition icbrt (n : Z) : Z :=
  fold_left
    (fun r b => let c := r + Z.shiftl 1 (Z.of_nat b) in
                if c * c * c <=? n then c else r)
    (rev (seq 0 36)) 0.

Definition K : list Z :=
  Eval vm_compute in map (fun p => wrap (icbrt (p * 2 ^ 96))) primes64.

Definition H0 : list Z :=
  Eval vm_compute in
    map (fun p => wrap (Z.sqrt (p * 2 ^ 64))) (firstn 8 primes64).

(** Big-endian bytes of [x], [n] of them. *)
Fixpoint be_bytes (n : nat) (x : Z) : list Z :=
  match n with
  | O => []
  | S m => Z.land (Z.shiftr x (8 * Z.of_nat m)) 255 :: be_bytes m x
  end.

(** Padding: a [0x80] byte, zeros up to 56 modulo 64, then the bit length
    on 8 bytes. *)
Definition pad (msg : list Z) : list Z :=
  let len := Z.of_nat (length msg) in
  msg ++ [128] ++ repeat 0 (Z.to_nat ((55 - len) mod 64)) ++ be_bytes 8 (8 * len).

Fixpoint words_of_bytes (fuel : nat) (bs : list Z) : list Z :=
  match fuel, bs with
  | S f, b0 :: b1 :: b2 :: b3 :: rest =>
      (Z.shiftl b0 24 + Z.shiftl b1 16 + Z.shiftl b2 8 + b3)
        :: words_of_bytes f rest
  | _, _ => []
  end.

Fixpoint blocks (fuel : nat) (ws : list Z) : list (list Z) :=
  match fuel, ws with
  | S f, _ :: _ => firstn 16 ws :: blocks f (skipn 16 ws)
  | _, _ => []
  end.

(** The message schedule, kept most recent word first while it grows. *)
Definition schedule_step (rw : list Z) : list Z :=
  add32 (add32 (ssig1 (nth 1 rw 0)) (nth 6 rw 0))
        (add32 (ssig0 (nth 14 rw 0)) (nth 15 rw 0)) :: rw.

Definition schedule (block : list Z) : list Z :=
  rev (Nat.iter 48 schedule_step (rev block)).

Record regs := Regs { ra : Z; rb : Z; rc : Z; rd : Z; re : Z; rf : Z; rg : Z; rh : Z }.

Definition round (s : regs) (kw : Z * Z) : regs :=
  let t1 := add32 (add32 (add32 (rh s) (bsig1 (re s)))
                         (add32 (Ch (re s) (rf s) (rg s)) (fst kw))) (snd kw) in
  let t2 := add32 (bsig0 (ra s)) (Maj (ra s) (rb s) (rc s)) in
  Regs (add32 t1 t2) (ra s) (rb s) (rc s) (add32 (rd s) t1) (re s) (rf s) (rg s).

Definition regs_of_list (l : list Z) : regs :=
  Regs (nth 0 l 0) (nth 1 l 0) (nth 2 l 0) (nth 3 l 0)
       (nth 4 l 0) (nth 5 l 0) (nth 6 l 0) (nth 7 l 0).

Definition list_of_regs (s : regs) : list Z :=
  [ra s; rb s; rc s; rd s; re s; rf s; rg s; rh s].

Definition compress (h : list Z) (block : list Z) : list Z :=
  let s := fold_left round (combine K (schedule block)) (regs_of_list h) in
  map (fun p => add32 (fst p) (snd p)) (combine h (list_of_regs s)).

Definition digest_words (msg : list Z) : list Z :=
  let ws := words_of_bytes (length msg + 72) (pad msg) in
  fold_left compress (blocks (length ws) ws) H0.

(** [digest("hex")]: lowercase hexadecimal, 8 digits a word. *)
Definition hex_digit (d : Z) : ascii :=
  nth (Z.to_nat d)
      ["0";"1";"2";"3";"4";"5";"6";"7";"8";"9";"a";"b";"c";"d";"e";"f"]%char
      "0"%char.

Fixpoint hex_of_word (n : nat) (w : Z) : string :=
  match n with
  | O => EmptyString
  | S m => String (hex_digit (Z.land (Z.shiftr w (4 * Z.of_nat m)) 15))
                  (hex_of_word m w)
  end.

Definition bytes_of_string (s : string) : list Z :=
  map (fun c => Z.of_N (N_of_ascii c)) (list_ascii_of_string s).

Definition hexdigest (s : string) : string :=
  fold_right (fun w acc => hex_of_word 8 w ++ acc)%string EmptyString
             (digest_words (bytes_of_string s)).

End SHA256.

(* ===================================================================== *)
(** * JavaScript values and [JSON.stringify]                             *)
(* ===================================================================== *)

(** A value that [express.json()] can put in [req.body], or that a handler
    builds from one. An object is the list of its own enumerable
    properties in the order [JSON.stringify] enumerates them (insertion
    order for the keys used here). Numbers are integers that a double
    holds exactly, below 10^21, which [JSON.stringify] writes digit by
    digit. *)
#[local] Set Warnings "-register-all".
Inductive jsval : Type :=
| JUndefined
| JNull
| JBool (b : bool)
| JNum (n : Z)
| JStr (s : string)
| JArr (items : list jsval)
| JObj (props : list (string * jsval)).

(** [o.k]: reading a property of [undefined] or [null] throws a TypeError
    ([None]); on any other value an absent property reads as
    [undefined]. *)
Fixpoint lookup_prop (k : string) (props : list (string * jsval)) : jsval :=
  match props with
  | [] => JUndefined
  | (k', v) :: rest => if String.eqb k k' then v else lookup_prop k rest
  end.

Definition get_prop (o : jsval) (k : string) : option jsval :=
  match o with
  | JUndefined | JNull => None
  | JObj props => Some (lookup_prop k props)
  | _ => Some JUndefined
  end.

Definition dquote : ascii := ascii_of_nat 34.
Definition backslash : ascii := ascii_of_nat 92.

(** The escapes of [JSON.stringify] for one UTF-16 code unit below 128;
    bytes of a multi-byte UTF-8 sequence pass through unchanged. *)
Definition escape_char (c : ascii) : string :=
  let n := nat_of_ascii c in
  if Nat.eqb n 34 then String backslash (String dquote EmptyString)
  else if Nat.eqb n 92 then String backslash (String backslash EmptyString)
  else if Nat.eqb n 8 then String backslash "b"
  else if Nat.eqb n 9 then String backslash "t"
  else if Nat.eqb n 10 then String backslash "n"
  else if Nat.eqb n 12 then String backslash "f"
  else if Nat.eqb n 13 then String backslash "r"
  else if Nat.ltb n 32 then
    String backslash
      ("u00" ++ String (SHA256.hex_digit (Z.of_nat (n / 16)))
                (String (SHA256.hex_digit (Z.of_nat (n mod 16))) EmptyString))
  else String c EmptyString.

Fixpoint escape (s : string) : string :=
  match s with
  | EmptyString => EmptyString
  | String c rest => escape_char c ++ escape rest
  end.

Definition quote (s : string) : string :=
  String dquote (escape s ++ String dquote EmptyString).

(** [Number.prototype.toString] of an integer. *)
Definition string_of_Z (n : Z) : string := NilZero.string_of_int (Z.to_int n).

Fixpoint join (sep : string) (l : list string) : string :=
  match l with
  | [] => EmptyString
  | [x] => x
  | x :: rest => x ++ sep ++ join sep rest
  end.

(** [JSON.stringify(v)]; [None] is the result [undefined]. A property
    whose value is [undefined] is left out of an object, and an
    [undefined] array item is written [null]. *)
Fixpoint stringify (v : jsval) : option string :=
  match v with
  | JUndefined => None
  | JNull => Some "null"
  | JBool b => Some (if b then "true" else "false")
  | JNum n => Some (string_of_Z n)
  | JStr s => Some (quote s)
  | JArr items =>
      Some ("[" ++ join ","
                    (map (fun x => match stringify x with
                                   | Some s => s
                                   | None => "null"
                                   end) items) ++ "]")
  | JObj props =>
      Some ("{" ++ join ","
                    ((fix members (ps : list (string * jsval)) : list string :=
                        match ps with
                        | [] => []
                        | (k, x) :: rest =>
                            match stringify x with
                            | Some s => (quote k ++ ":" ++ s) :: members rest
                            | None => members rest
                            end
                        end) props) ++ "}")
  end.

(** [hashData(data)]: the hexadecimal SHA-256 of [JSON.stringify(data)].
    [update(undefined)] throws, which is the [None] here. *)
Definition hashData (data : jsval) : option string :=
  option_map SHA256.hexdigest (stringify data).

(** The record of the specification's scenarios, with its fields in two
    insertion orders, and the same record one year older. *)
Definition alice : jsval :=
  JObj [("name", JStr "Alice"); ("bloodType", JStr "O+"); ("age", JNum 30)].
Definition alice_age_first : jsval :=
  JObj [("age", JNum 30); ("name", JStr "Alice"); ("bloodType", JStr "O+")].
Definition alice_31 : jsval :=
  JObj [("name", JStr "Alice"); ("bloodType", JStr "O+"); ("age", JNum 31)].

(** From here on [++] appends lists and [+:+] appends strings. *)
Local Open Scope list_scope.

(* ===================================================================== *)
(** * The outside world: the document store and the ledger topic         *)
(* ===================================================================== *)

(** Documents of the two Mongoose models of [src/test.js]: the store's
    [_id] and the fields of the schema (schema casting is not modelled: a
    field holds the value it was created with, [undefined] when the body
    had none). *)
Record PatientDoc := mkPatient {
  p_id : string;
  p_name : jsval;
  p_bloodType : jsval;
  p_age : jsval
}.

Record OrganDoc := mkOrgan {
  o_id : string;
  o_type : jsval;
  o_bloodType : jsval;
  o_donorId : jsval
}.

(** The topic holds the messages submitted so far, oldest first. The two
    scripts say how the next calls to the ledger and to the store end: a
    ledger call answers with a transaction id or throws ([None], also when
    the script is used up); a store call succeeds on [true] and throws
    otherwise. *)
Record World := mkWorld {
  topic : list string;
  patients : list PatientDoc;
  organs : list OrganDoc;
  next_id : N;
  ledger_script : list (option string);
  store_script : list bool
}.

(** An [async] body: it reads and changes the world and ends with a value
    or with a thrown error; what it did before throwing stays done. *)
Definition M (A : Type) : Type := World -> (A + string) * World.

Definition ret {A} (a : A) : M A := fun w => (inl a, w).
Definition throw {A} (e : string) : M A := fun w => (inr e, w).
Definition bind {A B} (c : M A) (k : A -> M B) : M B :=
  fun w => match c w with
           | (inl a, w') => k a w'
           | (inr e, w') => (inr e, w')
           end.
Definition try_catch {A} (c : M A) (handler : string -> M A) : M A :=
  fun w => match c w with
           | (inl a, w') => (inl a, w')
           | (inr e, w') => handler e w'
           end.

Notation "'let*' x ':=' c 'in' k" := (bind c (fun x => k))
  (at level 10, x name, c at level 100, k at level 200).

(** A step that throws a TypeError when it has no value. *)
Definition js {A} (o : option A) : M A :=
  match o with
  | Some a => ret a
  | None => throw "TypeError"
  end.

Fixpoint forM {A B} (l : list A) (f : A -> M B) : M (list B) :=
  match l with
  | [] => ret []
  | x :: rest =>
      let* y := f x in
      let* ys := forM rest f in
      ret (y :: ys)
  end.

(** [submitToHedera(message)]: on success the message is on the topic and
    the transaction id comes back; on failure [execute] throws. *)
Definition submitToHedera (message : string) : M string :=
  fun w =>
    match ledger_script w with
    | Some txId :: rest =>
        (inl txId,
         mkWorld (topic w ++ [message]) (patients w) (organs w) (next_id w)
                 rest (store_script w))
    | None :: rest =>
        (inr "ledger submission failed",
         mkWorld (topic w) (patients w) (organs w) (next_id w)
                 rest (store_script w))
    | [] => (inr "ledger submission failed", w)
    end.

(** One call to the store: it consumes one outcome of the script. *)
Definition store_call {A} (op : World -> A * World) : M A :=
  fun w =>
    match store_script w with
    | true :: rest =>
        let '(a, w') :=
          op (mkWorld (topic w) (patients w) (organs w) (next_id w)
                      (ledger_script w) rest) in
        (inl a, w')
    | false :: rest =>
        (inr "store failure",
         mkWorld (topic w) (patients w) (organs w) (next_id w)
                 (ledger_script w) rest)
    | [] => (inr "store failure", w)
    end.

Definition field (o : jsval) (k : string) : jsval :=
  match get_prop o k with
  | Some v => v
  | None => JUndefined
  end.

Definition fresh_id (w : World) : string :=
  NilZero.string_of_uint (N.to_uint (next_id w)).

(** [Patient.create(doc)], [Patient.find()], [Patient.findById(id)] and
    the same for [Organ]. [create] is given for a [doc] that is one
    object, of which it stores the fields of the schema as they are;
    [findById] for an [id] that is the string of an ObjectId, which it
    compares with the identifiers of the documents. *)
Definition Patient_create (doc : jsval) : M PatientDoc :=
  store_call (fun w =>
    let d := mkPatient (fresh_id w) (field doc "name")
                       (field doc "bloodType") (field doc "age") in
    (d, mkWorld (topic w) (patients w ++ [d]) (organs w) (N.succ (next_id w))
                (ledger_script w) (store_script w))).

Definition Organ_create (doc : jsval) : M OrganDoc :=
  store_call (fun w =>
    let d := mkOrgan (fresh_id w) (field doc "type")
                     (field doc "bloodType") (field doc "donorId") in
    (d, mkWorld (topic w) (patients w) (organs w ++ [d]) (N.succ (next_id w))
                (ledger_script w) (store_script w))).

Definition Patient_find : M (list PatientDoc) :=
  store_call (fun w => (patients w, w)).

Definition Organ_find : M (list OrganDoc) :=
  store_call (fun w => (organs w, w)).

Definition id_matches (id : jsval) (doc_id : string) : bool :=
  match id with
  | JStr s => String.eqb s doc_id
  | _ => false
  end.

Definition Patient_findById (id : jsval) : M (option PatientDoc) :=
  store_call (fun w => (find (fun d => id_matches id (p_id d)) (patients w), w)).

Definition Organ_findById (id : jsval) : M (option OrganDoc) :=
  store_call (fun w => (find (fun d => id_matches id (o_id d)) (organs w), w)).

(** What [res.json] writes for a stored document. *)
Definition json_of_patient (d : PatientDoc) : jsval :=
  JObj [("_id", JStr (p_id d)); ("name", p_name d);
        ("bloodType", p_bloodType d); ("age", p_age d)].

Definition json_of_organ (d : OrganDoc) : jsval :=
  JObj [("_id", JStr (o_id d)); ("type", o_type d);
        ("bloodType", o_bloodType d); ("donorId", o_donorId d)].

(** An HTTP response: [res.status(s).json(b)]; [res.json(b)] answers 200. *)
Record Response := mkResponse { status : Z; body : jsval }.

(* ===================================================================== *)
(** * Write path: [POST /patients] and [POST /organs]                    *)
(* ===================================================================== *)

(** The object literal both the write path and the verify path hash: the
    three fields of the variant, always in this order. *)
Definition patient_fields (name bloodType age : jsval) : jsval :=
  JObj [("name", name); ("bloodType", bloodType); ("age", age)].

Definition organ_fields (type bloodType donorId : jsval) : jsval :=
  JObj [("type", type); ("bloodType", bloodType); ("donorId", donorId)].

(** [app.post("/patients", ...)] of [src/test.js]. *)
Definition post_patients (patient : jsval) : M Response :=
  try_catch
    (let* name := js (get_prop patient "name") in
     let* bloodType := js (get_prop patient "bloodType") in
     let* age := js (get_prop patient "age") in
     let* hash := js (hashData (patient_fields name bloodType age)) in
     let message := "PATIENT|" +:+ hash in
     let* txId := submitToHedera message in
     let* savedPatient := Patient_create patient in
     ret (mkResponse 201
             (JObj [("transactionId", JStr txId); ("hash", JStr hash);
                    ("patient", json_of_patient savedPatient)])))
    (fun _ =>
       ret (mkResponse 500
               (JObj [("error", JStr "Failed to log patient to Hedera")]))).

(** [app.post("/organs", ...)] of [src/test.js]. *)
Definition post_organs (organ : jsval) : M Response :=
  try_catch
    (let* type := js (get_prop organ "type") in
     let* bloodType := js (get_prop organ "bloodType") in
     let* donorId := js (get_prop organ "donorId") in
     let* hash := js (hashData (organ_fields type bloodType donorId)) in
     let message := "ORGAN|" +:+ hash in
     let* txId := submitToHedera message in
     let* savedOrgan := Organ_create organ in
     ret (mkResponse 201
             (JObj [("transactionId", JStr txId); ("hash", JStr hash);
                    ("organ", json_of_organ savedOrgan)])))
    (fun _ =>
       ret (mkResponse 500
               (JObj [("error", JStr "Failed to log organ to Hedera")]))).

(** The first version of the server ([src/unnamed/part_002]) has no store
    and hashes the request body as it came. *)
Module Naive.

Definition post_patients (patient : jsval) : M Response :=
  try_catch
    (let* hash := js (hashData patient) in
     let message := "PATIENT|" +:+ hash in
     let* txId := submitToHedera message in
     ret (mkResponse 201
             (JObj [("transactionId", JStr txId); ("hash", JStr hash)])))
    (fun _ =>
       ret (mkResponse 500
               (JObj [("error", JStr "Failed to log patient to Hedera")]))).

Definition post_organs (organ : jsval) : M Response :=
  try_catch
    (let* hash := js (hashData organ) in
     let message := "ORGAN|" +:+ hash in
     let* txId := submitToHedera message in
     ret (mkResponse 201
             (JObj [("transactionId", JStr txId); ("hash", JStr hash)])))
    (fun _ =>
       ret (mkResponse 500
               (JObj [("error", JStr "Failed to log organ to Hedera")]))).

End Naive.

(* ===================================================================== *)
(** * Read path: the replay behind the verification endpoints           *)
(* ===================================================================== *)

(** A message of the topic as the SDK hands it to a callback. The
    timestamp and the running hash are given by their renderings
    ([toDate().toISOString()], [toString('hex')]) and are absent when the
    object received has no such property; [contents] is the UTF-8 text of
    the payload, which is also what [contents.toString('utf8')] gives for
    the [Buffer] the SDK holds it in under Node. *)
Record Chunk := mkChunk {
  c_contents : string;
  c_sequenceNumber : N;
  c_runningHash : string
}.

Record TopicMessage := mkMsg {
  consensusTimestamp : option string;
  sequenceNumber : N;
  contents : string;
  runningHash : option string;
  initialTransactionId : option string;
  chunks : option (list Chunk)
}.

(** [Long.prototype.toString()] of a sequence number. *)
Definition seq_string (n : N) : string := NilZero.string_of_uint (N.to_uint n).

(** What a callback does besides changing the variables it captured: the
    lines it writes to the console (without the pictographs some of them
    start with in the source) and the calls it makes on the timer, the
    subscription and the promise. *)
Inductive action : Type :=
| ConsoleLog (line : string)
| ConsoleWarn (line : string)
| ConsoleError (line : string)
| ClearTimeout
| Unsubscribe
| Resolve
| Reject.

Definition is_unsubscribe (a : action) : bool :=
  match a with Unsubscribe => true | _ => false end.

(** How many times a run released its subscription. *)
Definition releases (l : list action) : nat :=
  length (List.filter is_unsubscribe l).

(** [s.split(sep)] for a one-character separator: at least one segment. *)
Fixpoint split_on (sep : ascii) (s : string) : list string :=
  match s with
  | EmptyString => [EmptyString]
  | String c rest =>
      if Ascii.eqb c sep then EmptyString :: split_on sep rest
      else match split_on sep rest with
           | seg :: segs => String c seg :: segs
           | [] => [String c EmptyString]
           end
  end.

Definition pipe : ascii := "|"%char.

Record LogEntry := mkLog { type : string; hash : string }.

(** [const [type, hash] = content.split("|"); if (!type || !hash) ...]:
    the first two segments, both of them non-empty, or nothing. *)
Definition decode (content : string) : option LogEntry :=
  match split_on pipe content with
  | t :: h :: _ =>
      if String.eqb t EmptyString || String.eqb h EmptyString then None
      else Some (mkLog t h)
  | _ => None
  end.

(** The variables of one call of [getHederaHashes]: the [logs] array, the
    10 s timer, the promise (settled once, with the array or the error)
    and the trace of what the callbacks did. The promise is resolved with
    the array itself, which the callback goes on filling: the list kept
    in [settled] is the array as it is at the settling, which is what the
    caller reads when it resumes before the next event. *)
Record Replay := mkReplay {
  logs : list LogEntry;
  timer_armed : bool;
  settled : option (list LogEntry + string);
  trace : list action
}.

Inductive hedera_event : Type :=
| Message (msg : TopicMessage)
| SubscriptionError (error : string)
| TimerFires.

(** [resolve] and [reject] settle a pending promise and do nothing to a
    settled one. *)
Definition settle {A} (now : A) (current : option A) : option A :=
  match current with
  | Some _ => current
  | None => Some now
  end.

(** [logs.length >= expectedCount], [None] being the default [Infinity]. *)
Definition reached (expectedCount : option nat) (n : nat) : bool :=
  match expectedCount with
  | Some c => Nat.leb c n
  | None => false
  end.

Definition hedera_step (expectedCount : option nat) (st : Replay)
    (ev : hedera_event) : Replay :=
  match ev with
  | Message msg =>
      let content := contents msg in
      match decode content with
      | None =>
          mkReplay (logs st) (timer_armed st) (settled st)
                   (trace st ++ [ConsoleWarn ("Malformed message: " +:+ content)])
      | Some entry =>
          let logs' := logs st ++ [entry] in
          if reached expectedCount (length logs') then
            mkReplay logs' false (settle (inl logs') (settled st))
                     (trace st ++ [ClearTimeout; Resolve])
          else mkReplay logs' (timer_armed st) (settled st) (trace st)
      end
  | SubscriptionError error =>
      mkReplay (logs st) false (settle (inr error) (settled st))
               (trace st ++ [ClearTimeout;
                             ConsoleError "Error during topic subscription";
                             Reject])
  | TimerFires =>
      if timer_armed st then
        mkReplay (logs st) false (settle (inl (logs st)) (settled st))
                 (trace st ++ [ConsoleWarn "Timeout reached, resolving with partial logs.";
                               Resolve])
      else st
  end.

Definition replay_start : Replay := mkReplay [] true None [].

(** One call of [getHederaHashes(expectedCount)] during which the
    subscription delivers [events]: the timer is armed at the start and,
    unless a callback cleared it, fires at the latest once they are
    through. *)
Definition getHederaHashes (expectedCount : option nat)
    (events : list hedera_event) : Replay :=
  fold_left (hedera_step expectedCount) (events ++ [TimerFires]) replay_start.

(** [await getHederaHashes()]. The promise is never left pending: the
    timer settles it if nothing else has. *)
Definition await_hashes (events : list hedera_event) : M (list LogEntry) :=
  match settled (getHederaHashes None events) with
  | Some (inl l) => ret l
  | Some (inr e) => throw e
  | None => throw "pending"
  end.

(* ===================================================================== *)
(** * Reconciliation: [GET /verify] and [POST /verify]                   *)
(* ===================================================================== *)

Definition verdict (record : string) (id : string) (valid : bool)
    (computed : string) : jsval :=
  JObj [("record", JStr record); ("id", JStr id); ("valid", JBool valid);
        ("computedHash", JStr computed)].

(** [app.get("/verify", ...)] of [src/test.js]. *)
Definition get_verify (events : list hedera_event) : M Response :=
  try_catch
    (let* hederaLogs := await_hashes events in
     let hederaHashes : gset string := list_to_set (map hash hederaLogs) in
     let* patients := Patient_find in
     let* results_p :=
       forM patients (fun p =>
         let* computed :=
           js (hashData (patient_fields (p_name p) (p_bloodType p) (p_age p))) in
         ret (verdict "patient" (p_id p)
                       (bool_decide (computed ∈ hederaHashes)) computed)) in
     let* organs := Organ_find in
     let* results_o :=
       forM organs (fun o =>
         let* computed :=
           js (hashData (organ_fields (o_type o) (o_bloodType o) (o_donorId o))) in
         ret (verdict "organ" (o_id o)
                       (bool_decide (computed ∈ hederaHashes)) computed)) in
     ret (mkResponse 200 (JArr (results_p ++ results_o))))
    (fun _ =>
       ret (mkResponse 500 (JObj [("error", JStr "Verification failed")]))).

(** [hederaLogs.some(l => l.hash === computed)]. *)
Definition some_hash (computed : string) (hederaLogs : list LogEntry) : bool :=
  existsb (fun l => String.eqb (hash l) computed) hederaLogs.

Definition is_str (v : jsval) (s : string) : bool :=
  match v with
  | JStr s' => String.eqb s' s
  | _ => false
  end.

(** [app.post("/verify", ...)] of [src/test.js]. The [if] chain either
    ends the handler with a [return res.status(...)], the [inl] below, or
    leaves the record's [_id] and its recomputed hash for what follows. *)
Definition post_verify (req_body : jsval) (events : list hedera_event)
    : M Response :=
  try_catch
    (let* type := js (get_prop req_body "type") in
     let* id := js (get_prop req_body "id") in
     let* found :=
       (if is_str type "patient" then
          let* record := Patient_findById id in
          match record with
          | None =>
              ret (inl (mkResponse 404 (JObj [("error", JStr "Patient not found")])))
          | Some r =>
              let* computed :=
                js (hashData (patient_fields (p_name r) (p_bloodType r) (p_age r))) in
              ret (inr (p_id r, computed))
          end
        else if is_str type "organ" then
          let* record := Organ_findById id in
          match record with
          | None =>
              ret (inl (mkResponse 404 (JObj [("error", JStr "Organ not found")])))
          | Some r =>
              let* computed :=
                js (hashData (organ_fields (o_type r) (o_bloodType r) (o_donorId r))) in
              ret (inr (o_id r, computed))
          end
        else
          ret (inl (mkResponse 400 (JObj [("error", JStr "Invalid type specified")])))) in
     match found with
     | inl response => ret response
     | inr (record_id, computed) =>
         let* hederaLogs := await_hashes events in
         let valid := some_hash computed hederaLogs in
         ret (mkResponse 200
                (JObj [("record", type); ("id", JStr record_id);
                       ("valid", JBool valid); ("computedHash", JStr computed)]))
     end)
    (fun _ =>
       ret (mkResponse 500 (JObj [("error", JStr "Verification failed")]))).

(* ===================================================================== *)
(** * Read path: the replay of [GET /logs]                               *)
(* ===================================================================== *)

Record ParsedChunk := mkParsedChunk {
  pc_contents : string;
  pc_sequenceNumber : string;
  pc_runningHash : string
}.

Record ParsedMessage := mkParsed {
  pm_timestamp : string;
  pm_sequenceNumber : string;
  pm_message : string;
  pm_runningHash : string;
  pm_transactionId : option string;
  pm_chunks : option (list ParsedChunk)
}.

(** [parseTopicMessage(msg)] of [src/test.js]; [None] when it throws,
    which it does on a message without timestamp or running hash. *)
Definition parseTopicMessage (msg : TopicMessage) : option ParsedMessage :=
  match consensusTimestamp msg, runningHash msg with
  | Some ts, Some rh =>
      Some (mkParsed ts (seq_string (sequenceNumber msg)) (contents msg) rh
              (initialTransactionId msg)
              (option_map
                 (map (fun c => mkParsedChunk (c_contents c)
                                  (seq_string (c_sequenceNumber c))
                                  (c_runningHash c)))
                 (chunks msg)))
  | _, _ => None
  end.

(** The variables of one request: the [messages] array, the set of
    sequence numbers seen, the timer, the promise (the array is recorded
    as the handler finds it when the [await] resumes) and the trace. *)
Record LogsReplay := mkLogsReplay {
  messages : list ParsedMessage;
  seenSequenceNumbers : gset string;
  logs_timer_armed : bool;
  logs_settled : option (list ParsedMessage + string);
  logs_trace : list action
}.

(** The callbacks given to [query.subscribe]: the first receives a
    message; the second a message (anything with [contents]), an error or
    nothing; the third takes no argument. *)
Inductive logs_event : Type :=
| FirstCallback (msg : TopicMessage)
| SecondCallback (msgOrError : TopicMessage + option string)
| ThirdCallback
| LogsTimerFires.

Definition handleMessage (st : LogsReplay) (msg : TopicMessage) : LogsReplay :=
  let sequenceNumber := seq_string (sequenceNumber msg) in
  if bool_decide (sequenceNumber ∈ seenSequenceNumbers st) then
    mkLogsReplay (messages st) (seenSequenceNumbers st) (logs_timer_armed st)
      (logs_settled st)
      (logs_trace st ++ [ConsoleLog ("Skipping duplicate message: " +:+ sequenceNumber)])
  else
    let seen := {[ sequenceNumber ]} ∪ seenSequenceNumbers st in
    match parseTopicMessage msg with
    | Some parsed =>
        mkLogsReplay (messages st ++ [parsed]) seen (logs_timer_armed st)
          (logs_settled st)
          (logs_trace st ++ [ConsoleLog ("Decoded message: " +:+ pm_message parsed)])
    | None =>
        mkLogsReplay (messages st) seen (logs_timer_armed st) (logs_settled st)
          (logs_trace st ++ [ConsoleError "Error parsing message"])
    end.

(** [cleanup()]: both tests are true once [subscribe] and [setTimeout]
    have returned, and neither variable is reset afterwards. *)
Definition cleanup (st : LogsReplay) : LogsReplay :=
  mkLogsReplay (messages st) (seenSequenceNumbers st) false (logs_settled st)
    (logs_trace st ++ [Unsubscribe; ClearTimeout]).

Definition onComplete (st : LogsReplay) : LogsReplay :=
  let st' := cleanup st in
  mkLogsReplay (messages st') (seenSequenceNumbers st') (logs_timer_armed st')
    (settle (inl (messages st')) (logs_settled st'))
    (logs_trace st' ++ [Resolve]).

Definition onError (err : string) (st : LogsReplay) : LogsReplay :=
  let st' := cleanup st in
  mkLogsReplay (messages st') (seenSequenceNumbers st') (logs_timer_armed st')
    (settle (inr err) (logs_settled st'))
    (logs_trace st' ++ [Reject]).

Definition log_line (line : string) (st : LogsReplay) : LogsReplay :=
  mkLogsReplay (messages st) (seenSequenceNumbers st) (logs_timer_armed st)
    (logs_settled st) (logs_trace st ++ [ConsoleLog line]).

Definition logs_step (st : LogsReplay) (ev : logs_event) : LogsReplay :=
  match ev with
  | FirstCallback msg =>
      handleMessage (log_line "Message received in success callback" st) msg
  | SecondCallback (inl msg) =>
      handleMessage (log_line "Message received in error callback" st) msg
  | SecondCallback (inr (Some err)) => onError err st
  | SecondCallback (inr None) => onError "Unknown subscription error" st
  | ThirdCallback => onComplete (log_line "Subscription completed" st)
  | LogsTimerFires =>
      if logs_timer_armed st
      then onComplete (log_line "Subscription timeout reached" st)
      else st
  end.

Definition logs_start : LogsReplay := mkLogsReplay [] ∅ true None [].

Definition logs_replay (events : list logs_event) : LogsReplay :=
  fold_left logs_step (events ++ [LogsTimerFires]) logs_start.

(** The number a string of decimal digits stands for. *)
Definition decimal (s : string) : option N :=
  option_map N.of_uint (NilZero.uint_of_string s).

(** The Number nearest to the integer [n], the double that [parseInt]
    and every other conversion to Number returns for it: [n] itself up to
    53 significant bits, and otherwise [n] rounded to 53 significant
    bits, a tie going to the even one. No sequence number, a 64-bit
    integer, is large enough to overflow. *)
Definition to_double (n : N) : N :=
  let e := (N.size n - 53)%N in
  if (e =? 0)%N then n
  else
    let q := N.shiftr n e in
    let r := N.land n (N.ones e) in
    let half := N.shiftl 1 (e - 1) in
    let q' := if (half <? r)%N || ((r =? half)%N && N.odd q)
              then N.succ q else q in
    N.shiftl q' e.

(** [parseInt(s)] on the strings the program gives it, the decimal digits
    of [Long.prototype.toString()]: the double nearest to the number
    written. Anything else is [NaN], the [None] here. *)
Definition parseInt (s : string) : option N :=
  option_map to_double (decimal s).

(** [(a, b) => parseInt(a.sequenceNumber) - parseInt(b.sequenceNumber)]
    on two sequence-number strings. [sort] reads the sign of the
    difference only, which the rounding of the subtraction keeps; a [NaN]
    result counts as [+0] for [sort]. *)
Definition compare_sequence (a b : string) : Z :=
  match parseInt a, parseInt b with
  | Some x, Some y => (Z.of_N x - Z.of_N y)%Z
  | _, _ => 0%Z
  end.

(** The comparator of [GET /logs] of [src/test.js]. *)
Definition by_sequence (a b : ParsedMessage) : Z :=
  compare_sequence (pm_sequenceNumber a) (pm_sequenceNumber b).

(** [Array.prototype.sort(cmp)], a stable sort: written as the insertion
    sort that puts an element before the first one it does not follow.
    This is the order of every conforming [sort] when the comparator is a
    consistent one; with a comparator that is not (one that answers [NaN]
    for some pairs and orders others) the language leaves the order to
    the implementation. *)
Fixpoint insert_by {A} (cmp : A -> A -> Z) (x : A) (l : list A) : list A :=
  match l with
  | [] => [x]
  | y :: rest =>
      if (cmp x y <=? 0)%Z then x :: l else y :: insert_by cmp x rest
  end.

Definition array_sort {A} (cmp : A -> A -> Z) (l : list A) : list A :=
  fold_right (insert_by cmp) [] l.

Definition json_of_option (o : option string) : jsval :=
  match o with
  | Some s => JStr s
  | None => JNull
  end.

Definition json_of_chunk (c : ParsedChunk) : jsval :=
  JObj [("contents", JStr (pc_contents c));
        ("sequenceNumber", JStr (pc_sequenceNumber c));
        ("runningHash", JStr (pc_runningHash c))].

Definition json_of_message (m : ParsedMessage) : jsval :=
  JObj [("timestamp", JStr (pm_timestamp m));
        ("sequenceNumber", JStr (pm_sequenceNumber m));
        ("message", JStr (pm_message m));
        ("runningHash", JStr (pm_runningHash m));
        ("transactionId", json_of_option (pm_transactionId m));
        ("chunks", match pm_chunks m with
                   | Some cs => JArr (map json_of_chunk cs)
                   | None => JUndefined
                   end)].

(** The window [GET /logs] answers with: the messages collected when the
    promise resolved, sorted; [None] when it was rejected. *)
Definition logs_window (events : list logs_event) : option (list ParsedMessage) :=
  match logs_settled (logs_replay events) with
  | Some (inl collected) => Some (array_sort by_sequence collected)
  | _ => None
  end.

(** [app.get("/logs", ...)] of [src/test.js]. The promise is never left
    pending ([logs_replay_settles]), so the last case does not occur. *)
Definition get_logs (events : list logs_event) : Response :=
  match logs_settled (logs_replay events) with
  | Some (inl collected) =>
      let sorted := array_sort by_sequence collected in
      mkResponse 200
        (JObj [("success", JBool true);
               ("count", JNum (Z.of_nat (length sorted)));
               ("messages", JArr (map json_of_message sorted))])
  | Some (inr err) =>
      mkResponse 500
        (JObj [("success", JBool false); ("error", JStr "Failed to fetch logs");
               ("details", JStr err)])
  | None =>
      mkResponse 500
        (JObj [("success", JBool false); ("error", JStr "Failed to fetch logs");
               ("details", JUndefined)])
  end.

(* ===================================================================== *)
(** * [GET /logs] of the first version                                   *)
(* ===================================================================== *)

(** [app.get("/logs", ...)] of [src/unnamed/part_002]. It differs from the
    handler of [src/test.js]: a message that cannot be parsed leaves an
    entry of its own, the second callback takes for a message only what has
    a [consensusTimestamp], an error is logged and nothing else, no third
    callback is given, and the only exit is a timer of 5 s. *)
Module NaiveLogs.

(** What [parseTopicMessage] returns: the object of its [try], or the one
    of its [catch], whose [sequenceNumber] is the string [unknown] (and
    whose [error] is the text of the exception). *)
Inductive Entry : Type :=
| Parsed (timestamp sequenceNumber message runningHash : string)
| Unparsed.

Definition entry_sequenceNumber (e : Entry) : string :=
  match e with
  | Parsed _ sequenceNumber _ _ => sequenceNumber
  | Unparsed => "unknown"
  end.

Definition is_parsed (e : Entry) : bool :=
  match e with
  | Parsed _ _ _ _ => true
  | Unparsed => false
  end.

(** [parseTopicMessage(msg)], the second declaration of the file, which
    is the one in force. The timestamp is given by its rendering
    ([protobufTimestampToISOString]); reading a timestamp or a running
    hash that is not there throws. *)
Definition parseTopicMessage (msg : TopicMessage) : Entry :=
  match consensusTimestamp msg, runningHash msg with
  | Some ts, Some rh =>
      Parsed ts (seq_string (sequenceNumber msg)) (contents msg)
             (String.substring 0 16 rh +:+ "...")
  | _, _ => Unparsed
  end.

(** The variables of one request: the [messages] array, the set of
    sequence numbers seen, the timer, the array as the handler finds it
    once the timer has resolved the promise, and the trace. *)
Record Collector := mkCollector {
  messages : list Entry;
  seenSequenceNumbers : gset string;
  timer_armed : bool;
  resolved : option (list Entry);
  trace : list action
}.

(** The body both callbacks share, after their first console line. *)
Definition collect_message (line : string) (st : Collector)
    (msg : TopicMessage) : Collector :=
  let sequenceNumber := seq_string (sequenceNumber msg) in
  let tr := trace st ++ [ConsoleLog line] in
  if bool_decide (sequenceNumber ∈ seenSequenceNumbers st) then
    mkCollector (messages st) (seenSequenceNumbers st) (timer_armed st)
      (resolved st)
      (tr ++ [ConsoleLog ("Skipping duplicate message with sequence number: "
                          +:+ sequenceNumber)])
  else
    let parsed := parseTopicMessage msg in
    mkCollector (messages st ++ [parsed])
      ({[ sequenceNumber ]} ∪ seenSequenceNumbers st) (timer_armed st)
      (resolved st)
      (tr ++ (if is_parsed parsed then []
              else [ConsoleError "Error parsing message:"])
          ++ [ConsoleLog "Decoded message:"]).

(** The two callbacks given to [query.subscribe] and the timer. A
    completion of the subscription finds no callback. *)
Definition step (st : Collector) (ev : logs_event) : Collector :=
  match ev with
  | FirstCallback msg =>
      collect_message "Message received in message callback" st msg
  | SecondCallback (inl msg) =>
      match consensusTimestamp msg with
      | Some _ =>
          collect_message
            "Message received in error callback (treating as message)" st msg
      | None =>
          mkCollector (messages st) (seenSequenceNumbers st) (timer_armed st)
            (resolved st)
            (trace st ++ [ConsoleError "Actual subscription error:"])
      end
  | SecondCallback (inr _) =>
      mkCollector (messages st) (seenSequenceNumbers st) (timer_armed st)
        (resolved st)
        (trace st ++ [ConsoleError "Actual subscription error:"])
  | ThirdCallback => st
  | LogsTimerFires =>
      if timer_armed st then
        mkCollector (messages st) (seenSequenceNumbers st) false
          (settle (messages st) (resolved st))
          (trace st ++ [Unsubscribe; Resolve])
      else st
  end.

Definition start : Collector := mkCollector [] ∅ true None [].

Definition replay (events : list logs_event) : Collector :=
  fold_left step (events ++ [LogsTimerFires]) start.

(** [(a, b) => parseInt(a.sequenceNumber) - parseInt(b.sequenceNumber)]. *)
Definition by_sequence (a b : Entry) : Z :=
  compare_sequence (entry_sequenceNumber a) (entry_sequenceNumber b).

(** The [messages] of the answer: the array when the timer fired,
    sorted. *)
Definition logs_window (events : list logs_event) : option (list Entry) :=
  option_map (array_sort by_sequence) (resolved (replay events)).

End NaiveLogs.

(* ===================================================================== *)
(** * Vocabulary of the statements                                       *)
(* ===================================================================== *)

(** The digest [hashData] returns for an object. *)
Definition digest_of (data : jsval) : string :=
  match hashData data with
  | Some h => h
  | None => EmptyString
  end.

(** The next call to the ledger throws. *)
Definition ledger_fails (w : World) : bool :=
  match ledger_script w with
  | Some _ :: _ => false
  | _ => true
  end.

(** The digest the verify path recomputes for a stored record. *)
Definition patient_digest (p : PatientDoc) : string :=
  digest_of (patient_fields (p_name p) (p_bloodType p) (p_age p)).

Definition organ_digest (o : OrganDoc) : string :=
  digest_of (organ_fields (o_type o) (o_bloodType o) (o_donorId o)).

(** Worlds and messages of the scenarios: a ledger that answers, a ledger
    that is down, a store that holds Alice as she was anchored, and one
    that holds her with her age changed after anchoring. *)
Definition world_up : World :=
  mkWorld [] [] [] 1 [Some "0.0.1001@1700000000.000000001"] [true].

Definition world_down : World :=
  mkWorld [] [mkPatient "0" (JStr "Bob") (JStr "A-") (JNum 41)] [] 1 [None] [true].

Definition world_alice : World :=
  mkWorld [] [mkPatient "1" (JStr "Alice") (JStr "O+") (JNum 30)] [] 2 []
          [true; true; true].

Definition world_alice_31 : World :=
  mkWorld [] [mkPatient "1" (JStr "Alice") (JStr "O+") (JNum 31)] [] 2 []
          [true; true; true].

Definition alice_digest : string :=
  "d5892db8d3f858628df1daa811ccd9ff36afcf92604e562223a64396f6a03747".

Definition anchor_of_alice (tag : string) (n : N) : TopicMessage :=
  mkMsg (Some "2024-01-01T00:00:00.000Z") n (tag +:+ "|" +:+ alice_digest)
        (Some "00ff") None None.

(** The names of the own properties of an object, in order. *)
Definition own_keys (v : jsval) : list string :=
  match v with
  | JObj props => map fst props
  | _ => []
  end.

(** The decoded entries of a list of messages, in arrival order. *)
Definition collect (ms : list TopicMessage) : list LogEntry :=
  flat_map (fun m => match decode (contents m) with
                     | Some e => [e]
                     | None => []
                     end) ms.

(** Split at the first separator, as the specification words it, and its
    malformed entries: no separator, or an empty part on either side. *)
Fixpoint split_first (sep : ascii) (s : string) : option (string * string) :=
  match s with
  | EmptyString => None
  | String c rest =>
      if Ascii.eqb c sep then Some (EmptyString, rest)
      else match split_first sep rest with
           | Some (a, b) => Some (String c a, b)
           | None => None
           end
  end.

Definition spec_malformed (content : string) : bool :=
  match split_first pipe content with
  | Some (a, b) => String.eqb a EmptyString || String.eqb b EmptyString
  | None => true
  end.

(** The variables a later step reads: everything but the trace. *)
Definition vars (st : Replay) : list LogEntry * bool * option (list LogEntry + string) :=
  (logs st, timer_armed st, settled st).

(** The message a callback invocation delivers, if it delivers one. *)
Definition delivery (ev : logs_event) : option TopicMessage :=
  match ev with
  | FirstCallback msg => Some msg
  | SecondCallback (inl msg) => Some msg
  | _ => None
  end.

(** The event delivers a message that [parseTopicMessage] accepts. *)
Definition parses (ev : logs_event) : bool :=
  match delivery ev with
  | Some msg => match parseTopicMessage msg with Some _ => true | None => false end
  | None => false
  end.

(** The number a sequence-number string stands for. *)
Definition string_num (s : string) : N :=
  match decimal s with
  | Some n => n
  | None => 0%N
  end.

Definition seq_num (p : ParsedMessage) : N := string_num (pm_sequenceNumber p).

(** The entry carries the string of a sequence number. *)
Definition numbered (p : ParsedMessage) : Prop :=
  pm_sequenceNumber p = seq_string (seq_num p).

(** Every entry carries the string of a sequence number, and no two
    entries carry the same one. *)
Definition deduplicated (l : list ParsedMessage) : Prop :=
  List.NoDup (map pm_sequenceNumber l) /\ Forall numbered l.

(** The numbers a double represents exactly, one by one: those below
    2^53. *)
Definition safe_integer (n : N) : Prop := (n < 2 ^ 53)%N.

(** The order of the comparator: by the doubles of the two numbers. *)
Definition seq_le (a b : ParsedMessage) : Prop :=
  (to_double (seq_num a) <= to_double (seq_num b))%N.

(** What holds of the variables of a [GET /logs] request throughout: the
    collected messages are deduplicated, their sequence numbers are in
    the set of seen ones, and so was the array the promise resolved on. *)
Definition logs_inv (st : LogsReplay) : Prop :=
  deduplicated (messages st)
  /\ (forall p, In p (messages st) ->
                pm_sequenceNumber p ∈ seenSequenceNumbers st)
  /\ (forall c, logs_settled st = Some (inl c) -> deduplicated c).

(** The sequence numbers collected so far, and the states in which the
    set of seen numbers is exactly that (no delivery failed to parse). *)
Definition seqs (st : LogsReplay) : list string :=
  map pm_sequenceNumber (messages st).

Definition seen_exact (st : LogsReplay) : Prop :=
  forall s, s ∈ seenSequenceNumbers st <-> In s (seqs st).

Definition malformed_message : TopicMessage :=
  mkMsg (Some "2024-01-01T00:00:01.000Z") 2 "no separator here" (Some "01ab")
        None None.

(** The entry of a content as the amended claim C5 words it: the part
    before the first [|] and the part between the first [|] and the
    second, or the end when there is no second; nothing when there is no
    [|] or one of the two parts is empty. *)
Definition first_two_segments (content : string) : option LogEntry :=
  match split_first pipe content with
  | None => None
  | Some (t, rest) =>
      let h := match split_first pipe rest with
               | Some (h, _) => h
               | None => rest
               end in
      if String.eqb t EmptyString || String.eqb h EmptyString then None
      else Some (mkLog t h)
  end.

(** The entries of the messages that have two such segments, in arrival
    order. *)
Definition well_formed_entries (ms : list TopicMessage) : list LogEntry :=
  flat_map (fun m => match first_two_segments (contents m) with
                     | Some e => [e]
                     | None => []
                     end) ms.

(** A message that splits at the first [|] into two non-empty parts, the
    second of which begins with another [|]. *)
Definition double_separator_message : TopicMessage :=
  mkMsg (Some "2024-01-01T00:00:03.000Z") 7 "PATIENT||ab" (Some "00ff")
        None None.






(* ===================================================================== *)
(** * Vocabulary of the further properties                             *)
(* ===================================================================== *)

(** A lowercase hexadecimal digit. *)
Definition is_hex (c : ascii) : bool :=
  existsb (Ascii.eqb c)
    ["0";"1";"2";"3";"4";"5";"6";"7";"8";"9";"a";"b";"c";"d";"e";"f"]%char.

(** Every character of the string is a lowercase hexadecimal digit. *)
Fixpoint all_hex (s : string) : bool :=
  match s with
  | EmptyString => true
  | String c rest => is_hex c && all_hex rest
  end.

(** The next call to the store throws. *)
Definition store_fails (w : World) : bool :=
  match store_script w with
  | true :: _ => false
  | _ => true
  end.

(** The body is an object or another value with properties: neither
    [undefined] nor [null]. *)
Definition has_properties (v : jsval) : bool :=
  match v with
  | JUndefined | JNull => false
  | _ => true
  end.


(** The verdicts of bulk verification for a store and a list of entries. *)
Definition bulk_verdicts (w : World) (hederaLogs : list LogEntry) : list jsval :=
  map (fun p => verdict "patient" (p_id p)
                  (some_hash (patient_digest p) hederaLogs) (patient_digest p))
      (patients w)
  ++ map (fun o => verdict "organ" (o_id o)
                     (some_hash (organ_digest o) hederaLogs) (organ_digest o))
         (organs w).

(** The world with the store's remaining outcomes replaced. *)
Definition with_store_script (w : World) (outcomes : list bool) : World :=
  mkWorld (topic w) (patients w) (organs w) (next_id w) (ledger_script w) outcomes.

(** The answer of the [catch] of both verification handlers. *)
Definition verification_failed : Response :=
  mkResponse 500 (JObj [("error", JStr "Verification failed")]).

(** The body is one object (not an array, of which [Model.create] makes a
    document per element) whose three fields already have the types of
    the schema of [Patient] ([String], [String], [Number]) or are absent:
    Mongoose then stores one document, with the fields as they are. *)
Definition schema_typed_patient (req_body : jsval) : bool :=
  match req_body with
  | JObj _ =>
      match field req_body "name", field req_body "bloodType",
            field req_body "age" with
      | (JStr _ | JUndefined), (JStr _ | JUndefined), (JNum _ | JUndefined) =>
          true
      | _, _, _ => false
      end
  | _ => false
  end.

(** The messages delivered before the deadline of [getHederaHashes()]:
    those that come before the timer fires, and nothing when the
    subscription fails first. *)
Fixpoint until_deadline (events : list hedera_event)
  : option (list TopicMessage) :=
  match events with
  | [] => Some []
  | Message msg :: rest => option_map (cons msg) (until_deadline rest)
  | SubscriptionError _ :: _ => None
  | TimerFires :: _ => Some []
  end.

(** The string is the rendering of an ObjectId: 24 hexadecimal digits
    (lowercase, as [toString] writes them). [findById] casts such a string
    to the ObjectId it renders; other strings make it throw, and other
    values are cast by rules of their own. *)
Definition object_id_string (s : string) : bool :=
  Nat.eqb (String.length s) 24 && all_hex s.

(** The event is not the delivery of a message. *)
Definition is_signal (ev : logs_event) : bool :=
  match delivery ev with
  | Some _ => false
  | None => true
  end.

(** Two events that deliver the same message, through whichever
    callback, or are the same signal. *)
Definition same_delivery (e1 e2 : logs_event) : Prop :=
  match delivery e1, delivery e2 with
  | Some m1, Some m2 => m1 = m2
  | None, None => e1 = e2
  | _, _ => False
  end.

(** What verification may change in the world: nothing but the script of
    store outcomes it consumes. *)
Definition same_records (w w' : World) : Prop :=
  topic w' = topic w /\ patients w' = patients w /\ organs w' = organs w
  /\ next_id w' = next_id w /\ ledger_script w' = ledger_script w.

(** Entries that all satisfy [Q], in the array and in what the promise
    resolved on. *)
Definition all_entries (Q : ParsedMessage -> Prop) (st : LogsReplay) : Prop :=
  (forall p, In p (messages st) -> Q p)
  /\ (forall c, logs_settled st = Some (inl c) -> forall p, In p c -> Q p).

(** The variables of a [GET /logs] request without the trace. *)
Definition logs_vars (st : LogsReplay)
  : list ParsedMessage * gset string * bool * option (list ParsedMessage + string) :=
  (messages st, seenSequenceNumbers st, logs_timer_armed st, logs_settled st).

(** A message the mirror node delivers without its running hash. *)
Definition unparsable_message (n : N) : TopicMessage :=
  mkMsg (Some "2024-01-01T00:00:02.000Z") n "PATIENT|00" None None None.

(** The messages a list of events delivers, in order. *)
Definition delivered (evs : list logs_event) : list TopicMessage :=
  flat_map (fun ev => match delivery ev with
                      | Some msg => [msg]
                      | None => []
                      end) evs.

(* ===================================================================== *)
(** * Properties of the hashing and of the write path                    *)
(* ===================================================================== *)

(** The digests of the standard test messages. *)
Example sha256_empty :
  SHA256.hexdigest "" =
  "e3b0c44298fc1c149afbf4c8996fb92427ae41e4649b934ca495991b7852b855".
Proof. vm_compute. reflexivity. Qed.

Example sha256_abc :
  SHA256.hexdigest "abc" =
  "ba7816bf8f01cfea414140de5dae2223b00361a396177a9cb410ff61f20015ad".
Proof. vm_compute. reflexivity. Qed.

Example sha256_two_blocks :
  SHA256.hexdigest "abcdbcdecdefdefgefghfghighijhijkijkljklmklmnlmnomnopnopq" =
  "248d6a61d20638b8e5c026930c3e6039a33ce45964ff2167f6ecedd419db06c1".
Proof. vm_compute. reflexivity. Qed.

Example hashData_alice :
  hashData alice =
  Some "d5892db8d3f858628df1daa811ccd9ff36afcf92604e562223a64396f6a03747".
Proof. vm_compute. reflexivity. Qed.

Example hashData_alice_age_first :
  hashData alice_age_first =
  Some "6cd65cb2f7f29bcc38778ec5dae3da36ad74621f16bef94d800e5fd40a7b678b".
Proof. vm_compute. reflexivity. Qed.

Example hashData_alice_31 :
  hashData alice_31 =
  Some "c963009b576dc10cae8c2fc0cb2eb1593435a80a0c676524e8a57a1b0fa257fd".
Proof. vm_compute. reflexivity. Qed.

Arguments SHA256.hexdigest : simpl never.

(** Steps that recur in the proofs about handlers: the handler has
    answered (the response and the world are read off the goal); it
    answered from its [catch]; it answered with a status other than 200. *)
Ltac answered := eexists; eexists; split; [reflexivity|].
Ltac thrown := answered; cbn; auto.
Ltac not_ok := answered; cbn; repeat split; (congruence || discriminate).

Lemma hashData_obj (props : list (string * jsval)) :
  hashData (JObj props) = Some (digest_of (JObj props)).
Proof. reflexivity. Qed.

(** Calling [hashData] again on the same value gives the same digest. *)
Lemma hashData_repeatable (a b : jsval) : a = b -> hashData a = hashData b.
Proof. intros ->. reflexivity. Qed.

(** In [src/test.js] the digest anchored by [POST /patients] is that of the
    three fields in the handler's own order: two bodies that agree on the
    three fields are anchored under the same digest, whatever the order
    of their properties and whatever else they hold. *)
Lemma post_patients_hash_canonical (b1 b2 : jsval) (w : World) (r1 r2 : Response)
    (w1 w2 : World) :
  get_prop b1 "name" = get_prop b2 "name" ->
  get_prop b1 "bloodType" = get_prop b2 "bloodType" ->
  get_prop b1 "age" = get_prop b2 "age" ->
  post_patients b1 w = (inl r1, w1) ->
  post_patients b2 w = (inl r2, w2) ->
  status r1 = status r2 /\ field (body r1) "hash" = field (body r2) "hash"
  /\ topic w1 = topic w2.
Proof.
  unfold post_patients, try_catch, bind, js.
  intros <- <- <-.
  destruct (get_prop b1 "name") as [n|]; cbn [ret throw];
    [destruct (get_prop b1 "bloodType") as [bt|]; cbn [ret throw];
     [destruct (get_prop b1 "age") as [a|]; cbn [ret throw] | ] | ].
  - unfold patient_fields. rewrite hashData_obj. cbn [ret].
    destruct (submitToHedera _ w) as [[tx|e] w'] eqn:Hs.
    + unfold Patient_create, store_call.
      unfold submitToHedera in Hs.
      destruct (ledger_script w) as [|[t|] rest]; try discriminate.
      injection Hs as <- <-. cbn.
      destruct (store_script w) as [|[|] srest]; cbn;
        intros [= <- <-] [= <- <-]; auto.
    + intros [= <- <-] [= <- <-]. auto.
  - intros [= <- <-] [= <- <-]. auto.
  - intros [= <- <-] [= <- <-]. auto.
  - intros [= <- <-] [= <- <-]. auto.
Qed.

Lemma submit_inv message w r w' :
  submitToHedera message w = (r, w') ->
  patients w' = patients w /\ organs w' = organs w
  /\ store_script w' = store_script w /\ next_id w' = next_id w
  /\ match r with
     | inl _ => ledger_fails w = false /\ topic w' = topic w ++ [message]
     | inr _ => ledger_fails w = true /\ topic w' = topic w
     end.
Proof.
  unfold submitToHedera, ledger_fails.
  destruct (ledger_script w) as [|[t|] rest]; intros [= <- <-]; cbn;
    repeat split; reflexivity.
Qed.

Lemma store_call_inv {A} (op : World -> A * World) w r w' :
  store_call op w = (r, w') ->
  match r with
  | inl a => exists rest,
      store_script w = true :: rest
      /\ (a, w') = op (mkWorld (topic w) (patients w) (organs w) (next_id w)
                               (ledger_script w) rest)
  | inr _ => patients w' = patients w /\ organs w' = organs w
             /\ topic w' = topic w
  end.
Proof.
  unfold store_call.
  destruct (store_script w) as [|[|] rest].
  - intros [= <- <-]. auto.
  - destruct (op _) as [a w1] eqn:Hop. intros [= <- <-].
    exists rest. split; [reflexivity | auto].
  - intros [= <- <-]. cbn. auto.
Qed.

Lemma post_patients_inv (req_body : jsval) (w : World) :
  exists r w', post_patients req_body w = (inl r, w')
  /\ organs w' = organs w
  /\ ((status r = 500%Z /\ patients w' = patients w)
      \/ (status r = 201%Z /\ ledger_fails w = false
          /\ exists h d, topic w' = topic w ++ ["PATIENT|" +:+ h]
                         /\ patients w' = patients w ++ [d]))
  /\ (ledger_fails w = true -> status r = 500%Z /\ patients w' = patients w).
Proof.
  unfold post_patients, try_catch, bind, js.
  destruct (get_prop req_body "name") as [n|]; cbn [ret throw];
    [ | thrown ].
  destruct (get_prop req_body "bloodType") as [bt|]; cbn [ret throw];
    [ | thrown ].
  destruct (get_prop req_body "age") as [a|]; cbn [ret throw];
    [ | thrown ].
  unfold patient_fields. rewrite hashData_obj. cbn [ret].
  destruct (submitToHedera _ w) as [[tx|e] w1] eqn:Hs;
    apply submit_inv in Hs; destruct Hs as (Hp & Ho & Hss & Hn & Hl & Ht).
  - destruct (Patient_create req_body w1) as [[d|e] w2] eqn:Hc;
      unfold Patient_create in Hc; apply store_call_inv in Hc.
    + destruct Hc as (rest & Hscr & Hc). injection Hc as -> ->.
      answered. cbn.
      split; [assumption|]. split.
      * right. split; [reflexivity|]. split; [assumption|].
        eexists; eexists. split; [eassumption|]. rewrite Hp. reflexivity.
      * congruence.
    + destruct Hc as (Hp2 & Ho2 & Ht2).
      answered. cbn.
      split; [congruence|]. split; [left; split; congruence|].
      intros _; split; congruence.
  - answered. cbn. auto.
Qed.

Lemma post_organs_inv (req_body : jsval) (w : World) :
  exists r w', post_organs req_body w = (inl r, w')
  /\ patients w' = patients w
  /\ ((status r = 500%Z /\ organs w' = organs w)
      \/ (status r = 201%Z /\ ledger_fails w = false
          /\ exists h d, topic w' = topic w ++ ["ORGAN|" +:+ h]
                         /\ organs w' = organs w ++ [d]))
  /\ (ledger_fails w = true -> status r = 500%Z /\ organs w' = organs w).
Proof.
  unfold post_organs, try_catch, bind, js.
  destruct (get_prop req_body "type") as [n|]; cbn [ret throw];
    [ | thrown ].
  destruct (get_prop req_body "bloodType") as [bt|]; cbn [ret throw];
    [ | thrown ].
  destruct (get_prop req_body "donorId") as [a|]; cbn [ret throw];
    [ | thrown ].
  unfold organ_fields. rewrite hashData_obj. cbn [ret].
  destruct (submitToHedera _ w) as [[tx|e] w1] eqn:Hs;
    apply submit_inv in Hs; destruct Hs as (Hp & Ho & Hss & Hn & Hl & Ht).
  - destruct (Organ_create req_body w1) as [[d|e] w2] eqn:Hc;
      unfold Organ_create in Hc; apply store_call_inv in Hc.
    + destruct Hc as (rest & Hscr & Hc). injection Hc as -> ->.
      answered. cbn.
      split; [assumption|]. split.
      * right. split; [reflexivity|]. split; [assumption|].
        eexists; eexists. split; [eassumption|]. rewrite Ho. reflexivity.
      * congruence.
    + destruct Hc as (Hp2 & Ho2 & Ht2).
      answered. cbn.
      split; [congruence|]. split; [left; split; congruence|].
      intros _; split; congruence.
  - answered. cbn. auto.
Qed.

Lemma forM_digest {A} (obj : A -> jsval) (mk : A -> string -> jsval)
    (l : list A) (w : World) :
  (forall x, hashData (obj x) = Some (digest_of (obj x))) ->
  forM l (fun x => let* c := js (hashData (obj x)) in ret (mk x c)) w
  = (inl (map (fun x => mk x (digest_of (obj x))) l), w).
Proof.
  intros Hobj. induction l as [|x l IH]; [reflexivity|].
  cbn [forM map]. unfold bind at 1. unfold bind at 1.
  rewrite Hobj. cbn [js ret]. unfold bind at 1. rewrite IH. reflexivity.
Qed.

Lemma some_hash_spec (computed : string) (hederaLogs : list LogEntry) :
  some_hash computed hederaLogs = true
  <-> exists l, In l hederaLogs /\ hash l = computed.
Proof.
  unfold some_hash. rewrite existsb_exists.
  split; intros (l & Hin & Heq); exists l; split; auto.
  - apply String.eqb_eq in Heq. exact Heq.
  - apply String.eqb_eq. exact Heq.
Qed.

Lemma set_has_spec (computed : string) (hederaLogs : list LogEntry) :
  bool_decide (computed ∈ (list_to_set (map hash hederaLogs) : gset string))
  = some_hash computed hederaLogs.
Proof.
  apply eq_true_iff_eq. rewrite some_hash_spec.
  rewrite bool_decide_eq_true, elem_of_list_to_set, list_elem_of_In, in_map_iff.
  split; intros (l & H1 & H2); exists l; auto.
Qed.

Lemma await_hashes_inv events w r w' :
  await_hashes events w = (r, w') ->
  w' = w /\
  match r with
  | inl l => settled (getHederaHashes None events) = Some (inl l)
  | inr _ => True
  end.
Proof.
  unfold await_hashes.
  destruct (settled (getHederaHashes None events)) as [[l|e]|];
    intros [= <- <-]; auto.
Qed.

Lemma find_inv {A} (op : World -> A) w r w' :
  store_call (fun w0 => (op w0, w0)) w = (r, w') ->
  patients w' = patients w /\ organs w' = organs w /\ topic w' = topic w
  /\ match r with
     | inl a => a = op w'
     | inr _ => True
     end.
Proof.
  unfold store_call.
  destruct (store_script w) as [|[|] rest]; intros [= <- <-]; cbn; auto.
Qed.

Lemma get_verify_inv (events : list hedera_event) (w : World) :
  exists r w', get_verify events w = (inl r, w')
  /\ patients w' = patients w /\ organs w' = organs w
  /\ (r = mkResponse 500 (JObj [("error", JStr "Verification failed")])
      \/ exists hederaLogs,
           settled (getHederaHashes None events) = Some (inl hederaLogs)
           /\ r = mkResponse 200
                   (JArr (map (fun p => verdict "patient" (p_id p)
                                          (some_hash (patient_digest p) hederaLogs)
                                          (patient_digest p)) (patients w)
                          ++ map (fun o => verdict "organ" (o_id o)
                                             (some_hash (organ_digest o) hederaLogs)
                                             (organ_digest o)) (organs w)))).
Proof.
  unfold get_verify, try_catch. unfold bind at 1.
  destruct (await_hashes events w) as [[hederaLogs|e] w1] eqn:Ha;
    apply await_hashes_inv in Ha; destruct Ha as [-> Hl];
    [ | thrown ].
  unfold bind at 1.
  destruct (Patient_find w) as [[ps|e] w2] eqn:Hp;
    unfold Patient_find in Hp; apply find_inv in Hp;
    destruct Hp as (Hp1 & Hp2 & Hp3 & Hp4);
    [ | thrown ].
  unfold bind at 1.
  rewrite (forM_digest
             (fun p => patient_fields (p_name p) (p_bloodType p) (p_age p))
             (fun p c => verdict "patient" (p_id p)
                           (bool_decide (c ∈ (list_to_set (map hash hederaLogs) : gset string))) c))
    by (intros; apply hashData_obj).
  unfold bind at 1.
  destruct (Organ_find w2) as [[os|e] w3] eqn:Ho;
    unfold Organ_find in Ho; apply find_inv in Ho;
    destruct Ho as (Ho1 & Ho2 & Ho3 & Ho4);
    [ | answered; cbn; split; [congruence|split; [congruence|auto]] ].
  unfold bind at 1.
  rewrite (forM_digest
             (fun o => organ_fields (o_type o) (o_bloodType o) (o_donorId o))
             (fun o c => verdict "organ" (o_id o)
                           (bool_decide (c ∈ (list_to_set (map hash hederaLogs) : gset string))) c))
    by (intros; apply hashData_obj).
  answered. cbn [ret].
  split; [congruence|]. split; [congruence|]. right.
  exists hederaLogs. split; [assumption|].
  subst ps os. rewrite Hp1, Ho2, Hp2.
  f_equal. f_equal. f_equal.
  - apply map_ext. intros p. rewrite set_has_spec. reflexivity.
  - apply map_ext. intros o. rewrite set_has_spec. reflexivity.
Qed.

Lemma is_str_true (v : jsval) (s : string) : is_str v s = true -> v = JStr s.
Proof.
  destruct v; cbn; try discriminate. intros H%String.eqb_eq. congruence.
Qed.

Lemma post_verify_inv (req_body : jsval) (events : list hedera_event)
    (w : World) :
  exists r w', post_verify req_body events w = (inl r, w')
  /\ patients w' = patients w /\ organs w' = organs w
  /\ (status r = 200%Z ->
      exists hederaLogs,
        settled (getHederaHashes None events) = Some (inl hederaLogs)
        /\ ((exists p, In p (patients w)
                       /\ get_prop req_body "type" = Some (JStr "patient")
                       /\ body r = verdict "patient" (p_id p)
                                     (some_hash (patient_digest p) hederaLogs)
                                     (patient_digest p))
            \/ (exists o, In o (organs w)
                          /\ get_prop req_body "type" = Some (JStr "organ")
                          /\ body r = verdict "organ" (o_id o)
                                        (some_hash (organ_digest o) hederaLogs)
                                        (organ_digest o)))).
Proof.
  unfold post_verify, try_catch, js. unfold bind at 1.
  destruct (get_prop req_body "type") as [type|]; cbn [ret throw];
    [ | not_ok ].
  unfold bind at 1.
  destruct (get_prop req_body "id") as [id|]; cbn [ret throw];
    [ | not_ok ].
  unfold bind at 1.
  destruct (is_str type "patient") eqn:Htp;
    [ apply is_str_true in Htp; subst type
    | destruct (is_str type "organ") eqn:Hto;
      [ apply is_str_true in Hto; subst type
      | not_ok ] ].
  - unfold bind at 1.
    destruct (Patient_findById id w) as [[[p|]|e] w1] eqn:Hf;
      unfold Patient_findById in Hf; apply find_inv in Hf;
      destruct Hf as (Hp1 & Hp2 & Hp3 & Hp4);
      try (not_ok).
    unfold bind at 1. unfold patient_fields at 1. rewrite hashData_obj. cbn [ret].
    unfold bind at 1.
    destruct (await_hashes events w1) as [[hederaLogs|e] w2] eqn:Ha;
      apply await_hashes_inv in Ha; destruct Ha as [-> Hl];
      [ | not_ok ].
    answered. cbn [ret status body].
    split; [congruence|]. split; [congruence|]. intros _.
    exists hederaLogs. split; [assumption|]. left. exists p.
    split; [ | split; reflexivity ].
    symmetry in Hp4. apply find_some in Hp4. rewrite <- Hp1. apply Hp4.
  - unfold bind at 1.
    destruct (Organ_findById id w) as [[[o|]|e] w1] eqn:Hf;
      unfold Organ_findById in Hf; apply find_inv in Hf;
      destruct Hf as (Hp1 & Hp2 & Hp3 & Hp4);
      try (not_ok).
    unfold bind at 1. unfold organ_fields at 1. rewrite hashData_obj. cbn [ret].
    unfold bind at 1.
    destruct (await_hashes events w1) as [[hederaLogs|e] w2] eqn:Ha;
      apply await_hashes_inv in Ha; destruct Ha as [-> Hl];
      [ | not_ok ].
    answered. cbn [ret status body].
    split; [congruence|]. split; [congruence|]. intros _.
    exists hederaLogs. split; [assumption|]. right. exists o.
    split; [ | split; reflexivity ].
    symmetry in Hp4. apply find_some in Hp4. rewrite <- Hp2. apply Hp4.
Qed.

(** C1. The first version of the server ([src/unnamed/part_002]) hashes
    the request body as the caller laid it out: the same patient sent
    with [age] first is anchored under another digest, where the claim
    asks for one digest whatever the insertion order. The handler of
    [src/test.js] run on the same two bodies anchors both under the
    digest of the fields in its own order. *)
Theorem naive_hash_follows_insertion_order :
  fst (Naive.post_patients alice world_up)
  = inl (mkResponse 201
           (JObj [("transactionId", JStr "0.0.1001@1700000000.000000001");
                  ("hash", JStr "d5892db8d3f858628df1daa811ccd9ff36afcf92604e562223a64396f6a03747")]))
  /\ fst (Naive.post_patients alice_age_first world_up)
     = inl (mkResponse 201
              (JObj [("transactionId", JStr "0.0.1001@1700000000.000000001");
                     ("hash", JStr "6cd65cb2f7f29bcc38778ec5dae3da36ad74621f16bef94d800e5fd40a7b678b")]))
  /\ topic (snd (post_patients alice world_up))
     = topic (snd (post_patients alice_age_first world_up)).
Proof. vm_compute. repeat split; reflexivity. Qed.

(** C9. [POST /patients] and [POST /organs] await the ledger submission
    before they call [create]. Each handler always answers; when the
    submission throws, the answer is a 500 and the store is as it was;
    and a handler that added a record to its collection had its anchor
    message accepted by the ledger first (it is the last message of the
    topic). *)
Theorem anchor_before_store (req_body : jsval) (w : World) :
  exists rp wp ro wo,
    post_patients req_body w = (inl rp, wp)
    /\ post_organs req_body w = (inl ro, wo)
    /\ (ledger_fails w = true ->
        status rp = 500%Z /\ patients wp = patients w /\ organs wp = organs w
        /\ status ro = 500%Z /\ patients wo = patients w /\ organs wo = organs w)
    /\ (patients wp = patients w
        \/ (ledger_fails w = false
            /\ exists h d, topic wp = topic w ++ ["PATIENT|" +:+ h]
                           /\ patients wp = patients w ++ [d]))
    /\ (organs wo = organs w
        \/ (ledger_fails w = false
            /\ exists h d, topic wo = topic w ++ ["ORGAN|" +:+ h]
                           /\ organs wo = organs w ++ [d])).
Proof.
  destruct (post_patients_inv req_body w) as (rp & wp & Hp & Hpo & Hpc & Hpf).
  destruct (post_organs_inv req_body w) as (ro & wo & Ho & Hop & Hoc & Hof).
  exists rp, wp, ro, wo.
  split; [exact Hp|]. split; [exact Ho|]. split; [|split].
  - intros Hf. destruct (Hpf Hf) as [? ?]. destruct (Hof Hf) as [? ?].
    repeat split; assumption.
  - destruct Hpc as [[_ H]|(_ & Hl & H)]; [left; exact H | right].
    split; [exact Hl | exact H].
  - destruct Hoc as [[_ H]|(_ & Hl & H)]; [left; exact H | right].
    split; [exact Hl | exact H].
Qed.

Lemma anchor_before_store_witness :
  exists rp wp,
    post_patients alice world_down = (inl rp, wp)
    /\ status rp = 500%Z /\ patients wp = patients world_down.
Proof.
  destruct (anchor_before_store alice world_down)
    as (rp & wp & ro & wo & Hp & Ho & Hfail & _).
  exists rp, wp. split; [exact Hp|].
  destruct (Hfail eq_refl) as (Hs & Hpat & _).
  split; [exact Hs | exact Hpat].
Defined.

(** C3, as the code has it. A result of bulk verification holds the four
    properties [record], [id], [valid] and [computedHash] and no other:
    [GET /verify] answers either a 500 or a 200 whose body is an array of
    such objects, one per stored record. Nothing in a result, negative or
    not, says whether the replay ended at its deadline. *)
Theorem bulk_results_have_four_fields (events : list hedera_event) (w : World) :
  exists r w',
    get_verify events w = (inl r, w')
    /\ (status r = 500%Z
        \/ (status r = 200%Z
            /\ exists results,
                 body r = JArr results
                 /\ length results = (length (patients w) + length (organs w))%nat
                 /\ Forall (fun x => own_keys x
                                     = ["record"; "id"; "valid"; "computedHash"]
                                     /\ get_prop x "replayComplete" = Some JUndefined)
                           results)).
Proof.
  destruct (get_verify_inv events w) as (r & w' & Hr & _ & _ & [->|(l & Hl & ->)]);
    exists r, w' || (eexists; eexists); (split; [exact Hr|]).
  - left. reflexivity.
  - right. split; [reflexivity|]. eexists. split; [reflexivity|].
    split.
    + rewrite length_app, !length_map. reflexivity.
    + apply Forall_app. split; apply List.Forall_forall; intros x Hx;
        apply in_map_iff in Hx; destruct Hx as (d & <- & _);
        split; reflexivity.
Qed.

(** C3, the claim as stated, fails: Alice is stored with her age changed
    and nothing was delivered before the deadline. Bulk verification
    returns one negative result, and that result has no [replayComplete]
    property. *)
Lemma negative_result_has_no_replayComplete :
  fst (get_verify [] world_alice_31)
  = inl (mkResponse 200
           (JArr [JObj [("record", JStr "patient"); ("id", JStr "1");
                        ("valid", JBool false);
                        ("computedHash", JStr "c963009b576dc10cae8c2fc0cb2eb1593435a80a0c676524e8a57a1b0fa257fd")]])).
Proof. vm_compute. reflexivity. Qed.

(** C10. Both verification modes decide [valid] by the hash alone. Bulk
    verification answers, for each stored record, whether some replayed
    entry has the record's recomputed hash; point verification answers
    the same for the record it was asked about; and "some entry has the
    hash" looks at no entry's type tag. *)
Theorem validity_is_hash_membership (req_body : jsval)
    (events : list hedera_event) (w : World) :
  (exists r w',
     get_verify events w = (inl r, w')
     /\ (status r = 500%Z
         \/ exists hederaLogs,
              settled (getHederaHashes None events) = Some (inl hederaLogs)
              /\ r = mkResponse 200
                       (JArr (map (fun p => verdict "patient" (p_id p)
                                              (some_hash (patient_digest p) hederaLogs)
                                              (patient_digest p)) (patients w)
                              ++ map (fun o => verdict "organ" (o_id o)
                                                 (some_hash (organ_digest o) hederaLogs)
                                                 (organ_digest o)) (organs w)))))
  /\ (exists r w',
        post_verify req_body events w = (inl r, w')
        /\ (status r = 200%Z ->
            exists hederaLogs,
              settled (getHederaHashes None events) = Some (inl hederaLogs)
              /\ ((exists p, In p (patients w)
                             /\ body r = verdict "patient" (p_id p)
                                           (some_hash (patient_digest p) hederaLogs)
                                           (patient_digest p))
                  \/ (exists o, In o (organs w)
                                /\ body r = verdict "organ" (o_id o)
                                              (some_hash (organ_digest o) hederaLogs)
                                              (organ_digest o)))))
  /\ (forall computed hederaLogs,
        some_hash computed hederaLogs = true
        <-> exists l, In l hederaLogs /\ hash l = computed).
Proof.
  split; [|split].
  - destruct (get_verify_inv events w) as (r & w' & Hr & _ & _ & [->|H]);
      eexists; eexists; (split; [exact Hr|]); [left; reflexivity | right; exact H].
  - destruct (post_verify_inv req_body events w) as (r & w' & Hr & _ & _ & H).
    exists r, w'. split; [exact Hr|]. intros Hs.
    destruct (H Hs) as (l & Hl & [(p & Hin & _ & Hb)|(o & Hin & _ & Hb)]);
      exists l; (split; [exact Hl|]); [left; exists p | right; exists o]; auto.
  - intros computed hederaLogs. apply some_hash_spec.
Qed.

(** An entry tagged [ORGAN] that carries the hash of a patient makes the
    patient valid, in both modes. *)
Lemma validity_is_hash_membership_witness :
  some_hash alice_digest
    [mkLog "ORGAN" alice_digest] = true
  /\ fst (get_verify [Message (anchor_of_alice "ORGAN" 1)] world_alice)
     = inl (mkResponse 200
              (JArr [verdict "patient" "1" true alice_digest]))
  /\ fst (post_verify (JObj [("type", JStr "patient"); ("id", JStr "1")])
                      [Message (anchor_of_alice "ORGAN" 1)] world_alice)
     = inl (mkResponse 200 (verdict "patient" "1" true alice_digest)).
Proof.
  split; [|split].
  - apply (proj2 (proj2 (validity_is_hash_membership JNull [] world_alice))).
    exists (mkLog "ORGAN" alice_digest). split; [left|]; reflexivity.
  - vm_compute. reflexivity.
  - vm_compute. reflexivity.
Defined.

(* ===================================================================== *)
(** * Properties of the replay behind the verification endpoints        *)
(* ===================================================================== *)

Lemma split_on_cons sep s : exists seg segs, split_on sep s = seg :: segs.
Proof.
  induction s as [|c s (seg & segs & IH)]; cbn.
  - eauto.
  - destruct (Ascii.eqb c sep); [eauto|]. rewrite IH. eauto.
Qed.

Lemma split_on_first sep s :
  split_on sep s = match split_first sep s with
                   | Some (a, b) => a :: split_on sep b
                   | None => [s]
                   end.
Proof.
  induction s as [|c s IH]; cbn; [reflexivity|].
  destruct (Ascii.eqb c sep); [reflexivity|].
  rewrite IH. destruct (split_first sep s) as [[a b]|]; reflexivity.
Qed.

Lemma spec_malformed_decode content :
  spec_malformed content = true -> decode content = None.
Proof.
  unfold spec_malformed, decode. rewrite split_on_first.
  destruct (split_first pipe content) as [[a b]|]; [|reflexivity].
  destruct (split_on_cons pipe b) as (seg & segs & Hb). rewrite Hb.
  destruct (String.eqb_spec a EmptyString) as [->|Ha]; cbn; [reflexivity|].
  destruct (String.eqb_spec b EmptyString) as [->|Hb']; [|discriminate].
  intros _. cbn in Hb. injection Hb as <- <-.
  cbn. destruct (String.eqb a EmptyString); reflexivity.
Qed.

(** A content with one separator and a non-empty part on each side is
    decoded into these two parts. *)
Lemma decode_type_hash content t h :
  split_first pipe content = Some (t, h) ->
  split_first pipe h = None ->
  t <> EmptyString -> h <> EmptyString ->
  decode content = Some (mkLog t h).
Proof.
  intros Hc Hh Ht Hne. unfold decode.
  rewrite split_on_first, Hc, split_on_first, Hh.
  destruct (String.eqb_spec t EmptyString) as [|_]; [contradiction|].
  destruct (String.eqb_spec h EmptyString) as [|_]; [contradiction|].
  reflexivity.
Qed.

Section Replay.
Variable expectedCount : option nat.

Local Abbreviation step := (hedera_step expectedCount).

Lemma step_settled_stable st ev x :
  settled st = Some x -> settled (step st ev) = Some x.
Proof.
  intros Hs. destruct ev as [msg|e|]; cbn.
  - destruct (decode (contents msg)); [|exact Hs].
    destruct (reached _ _); cbn; rewrite Hs; reflexivity.
  - rewrite Hs. reflexivity.
  - destruct (timer_armed st); cbn; rewrite Hs; reflexivity.
Qed.

Lemma run_settled_stable evs st x :
  settled st = Some x -> settled (fold_left step evs st) = Some x.
Proof.
  revert st. induction evs as [|ev evs IH]; intros st Hs; [exact Hs|].
  cbn. apply IH. apply step_settled_stable. exact Hs.
Qed.

Lemma step_pending_armed st ev :
  (settled st = None -> timer_armed st = true) ->
  settled (step st ev) = None -> timer_armed (step st ev) = true.
Proof.
  intros Hinv. destruct ev as [msg|e|]; cbn.
  - destruct (decode (contents msg)); [|exact Hinv].
    destruct (reached _ _); cbn; [|exact Hinv].
    destruct (settled st); discriminate.
  - destruct (settled st); discriminate.
  - destruct (timer_armed st) eqn:Ht; cbn; [|intros H; specialize (Hinv H); congruence].
    destruct (settled st); discriminate.
Qed.

Lemma run_pending_armed evs st :
  (settled st = None -> timer_armed st = true) ->
  settled (fold_left step evs st) = None ->
  timer_armed (fold_left step evs st) = true.
Proof.
  revert st. induction evs as [|ev evs IH]; intros st Hinv; [exact Hinv|].
  cbn. apply IH. apply step_pending_armed. exact Hinv.
Qed.

Lemma step_releases st ev :
  releases (trace (step st ev)) = releases (trace st).
Proof.
  unfold releases.
  destruct ev as [msg|e|]; cbn.
  - destruct (decode (contents msg)); cbn.
    + destruct (reached _ _); cbn; [|reflexivity].
      rewrite List.filter_app, length_app. cbn. lia.
    + rewrite List.filter_app, length_app. cbn. lia.
  - rewrite List.filter_app, length_app. cbn. lia.
  - destruct (timer_armed st); cbn; [|reflexivity].
    rewrite List.filter_app, length_app. cbn. lia.
Qed.

Lemma run_releases evs st :
  releases (trace (fold_left step evs st)) = releases (trace st).
Proof.
  revert st. induction evs as [|ev evs IH]; intros st; [reflexivity|].
  cbn. rewrite IH. apply step_releases.
Qed.

Lemma step_vars st1 st2 ev :
  vars st1 = vars st2 -> vars (step st1 ev) = vars (step st2 ev).
Proof.
  unfold vars. destruct st1 as [l1 t1 s1 tr1], st2 as [l2 t2 s2 tr2]. cbn.
  intros [= -> -> ->].
  destruct ev as [msg|e|]; cbn.
  - destruct (decode (contents msg)); cbn; [|reflexivity].
    destruct (reached _ _); reflexivity.
  - reflexivity.
  - destruct t2; reflexivity.
Qed.

Lemma run_vars evs st1 st2 :
  vars st1 = vars st2 ->
  vars (fold_left step evs st1) = vars (fold_left step evs st2).
Proof.
  revert st1 st2. induction evs as [|ev evs IH]; intros st1 st2 H; [exact H|].
  cbn. apply IH. apply step_vars. exact H.
Qed.

End Replay.

Lemma run_messages_unbounded ms st :
  fold_left (hedera_step None) (map Message ms) st
  = mkReplay (logs st ++ collect ms) (timer_armed st) (settled st)
             (trace st ++ flat_map (fun m => match decode (contents m) with
                                    | Some _ => []
                                    | None => [ConsoleWarn ("Malformed message: " +:+ contents m)]
                                    end) ms).
Proof.
  revert st. induction ms as [|m ms IH]; intros st; cbn.
  - rewrite !app_nil_r. destruct st; reflexivity.
  - rewrite IH. destruct (decode (contents m)); cbn.
    + rewrite <- app_assoc. reflexivity.
    + rewrite <- app_assoc. reflexivity.
Qed.

(* ===================================================================== *)
(** * Properties of the replay of [GET /logs]                            *)
(* ===================================================================== *)

Lemma decimal_seq_string (n : N) : decimal (seq_string n) = Some n.
Proof.
  unfold decimal, seq_string.
  rewrite NilZero.usu.
  - cbn. f_equal. apply DecimalN.Unsigned.of_to.
  - destruct n as [|p]; cbn; [discriminate|].
    apply DecimalPos.Unsigned.to_uint_nonnil.
Qed.

Lemma parseInt_seq_string (n : N) : parseInt (seq_string n) = Some (to_double n).
Proof. unfold parseInt. rewrite decimal_seq_string. reflexivity. Qed.

Lemma seq_string_inj (n m : N) : seq_string n = seq_string m -> n = m.
Proof.
  intros H. apply (f_equal decimal) in H.
  rewrite !decimal_seq_string in H. congruence.
Qed.

Lemma string_num_seq_string (n : N) : string_num (seq_string n) = n.
Proof. unfold string_num. rewrite decimal_seq_string. reflexivity. Qed.

Lemma parse_sequence msg parsed :
  parseTopicMessage msg = Some parsed ->
  pm_sequenceNumber parsed = seq_string (sequenceNumber msg).
Proof.
  unfold parseTopicMessage.
  destruct (consensusTimestamp msg), (runningHash msg); try discriminate.
  intros [= <-]. reflexivity.
Qed.

Lemma seq_num_of_string p n :
  pm_sequenceNumber p = seq_string n -> seq_num p = n.
Proof. unfold seq_num. intros ->. apply string_num_seq_string. Qed.

(** A number below 2^53 is its own double. *)
Lemma to_double_safe (n : N) : safe_integer n -> to_double n = n.
Proof.
  unfold safe_integer, to_double. intros H.
  assert (Hs : (N.size n <= 53)%N).
  { destruct (N.eq_dec n 0%N) as [->|Hn]; [cbn; lia|].
    rewrite N.size_log2 by exact Hn.
    apply N.le_succ_l. apply N.log2_lt_pow2; lia. }
  replace (N.size n - 53)%N with 0%N by lia. reflexivity.
Qed.

(** ** The sort *)

Lemma insert_by_perm {A} (cmp : A -> A -> Z) x l :
  Permutation (insert_by cmp x l) (x :: l).
Proof.
  induction l as [|y l IH]; cbn; [reflexivity|].
  destruct (cmp x y <=? 0)%Z; [reflexivity|].
  rewrite IH. apply perm_swap.
Qed.

Lemma array_sort_perm {A} (cmp : A -> A -> Z) l :
  Permutation (array_sort cmp l) l.
Proof.
  induction l as [|x l IH]; cbn; [reflexivity|].
  rewrite insert_by_perm. apply perm_skip. exact IH.
Qed.

Lemma sorted_le_lt (ns : list N) :
  StronglySorted N.le ns -> List.NoDup ns -> StronglySorted N.lt ns.
Proof.
  induction 1 as [|n ns Hs IH Hall]; intros Hnd; [constructor|].
  apply List.NoDup_cons_iff in Hnd. destruct Hnd as [Hnot Hnd].
  constructor; [auto|].
  apply List.Forall_forall. intros m Hm.
  rewrite List.Forall_forall in Hall. specialize (Hall m Hm).
  assert (n <> m) by (intros ->; contradiction). lia.
Qed.


Lemma sorted_doubles_safe (ns : list N) :
  StronglySorted N.le (map to_double ns) -> Forall safe_integer ns ->
  StronglySorted N.le ns.
Proof.
  intros Hs Hsafe.
  assert (Heq : map to_double ns = ns).
  { clear Hs. induction Hsafe as [|n ns Hn _ IH]; cbn; [reflexivity|].
    rewrite (to_double_safe n Hn), IH. reflexivity. }
  rewrite Heq in Hs. exact Hs.
Qed.

(** Sorting with the comparator of the two handlers, for any kind of
    entry that carries its sequence number as a string. *)
Section SortBySequence.
Context {A : Type} (key : A -> string) (cmp : A -> A -> Z).
Hypothesis cmp_key : forall a b, cmp a b = compare_sequence (key a) (key b).

Let num (a : A) : N := string_num (key a).
Let has_number (a : A) : Prop := key a = seq_string (num a).
Let double_le (a b : A) : Prop := (to_double (num a) <= to_double (num b))%N.

Lemma cmp_numbers a b :
  has_number a -> has_number b ->
  cmp a b = (Z.of_N (to_double (num a)) - Z.of_N (to_double (num b)))%Z.
Proof.
  unfold has_number. intros Ha Hb. rewrite cmp_key. unfold compare_sequence.
  rewrite Ha, Hb, !parseInt_seq_string. reflexivity.
Qed.

Lemma insert_by_sorted x l :
  has_number x -> Forall has_number l ->
  StronglySorted double_le l -> StronglySorted double_le (insert_by cmp x l).
Proof.
  intros Hx Hl Hs. induction l as [|y l IH]; cbn.
  - constructor; constructor.
  - apply List.Forall_cons_iff in Hl. destruct Hl as [Hy Hl].
    apply StronglySorted_inv in Hs. destruct Hs as [Hs Hyl].
    rewrite (cmp_numbers x y Hx Hy).
    destruct (Z.leb_spec (Z.of_N (to_double (num x)) - Z.of_N (to_double (num y))) 0)
      as [Hle|Hgt].
    + constructor; [constructor; assumption|].
      constructor; [unfold double_le; lia|].
      eapply List.Forall_impl; [|exact Hyl].
      unfold double_le. intros z Hz. lia.
    + constructor; [apply IH; assumption|].
      eapply Permutation_Forall; [symmetry; apply insert_by_perm|].
      constructor; [unfold double_le; lia | exact Hyl].
Qed.

Lemma array_sort_sorted l :
  Forall has_number l -> StronglySorted double_le (array_sort cmp l).
Proof.
  induction l as [|x l IH]; cbn; intros Hl; [constructor|].
  apply List.Forall_cons_iff in Hl. destruct Hl as [Hx Hl].
  apply insert_by_sorted; [assumption| |auto].
  eapply Permutation_Forall; [symmetry; apply array_sort_perm|exact Hl].
Qed.

(** A list without a repeated sequence number, once sorted, carries the
    strings of numbers whose doubles ascend; the numbers themselves
    ascend strictly when each is its own double. *)
Lemma sort_by_sequence l :
  Forall has_number l -> List.NoDup (map key l) ->
  map key (array_sort cmp l) = map seq_string (map num (array_sort cmp l))
  /\ StronglySorted N.le (map to_double (map num (array_sort cmp l)))
  /\ (Forall safe_integer (map num (array_sort cmp l)) ->
      StronglySorted N.lt (map num (array_sort cmp l)))
  /\ List.NoDup (map key (array_sort cmp l))
  /\ Forall has_number (array_sort cmp l).
Proof.
  intros Hnum Hnd.
  assert (Hnum' : Forall has_number (array_sort cmp l)).
  { eapply Permutation_Forall; [symmetry; apply array_sort_perm|exact Hnum]. }
  assert (Hnd' : List.NoDup (map key (array_sort cmp l))).
  { eapply Permutation_NoDup; [|exact Hnd].
    apply Permutation_map. symmetry. apply array_sort_perm. }
  assert (Heq : map key (array_sort cmp l)
                = map seq_string (map num (array_sort cmp l))).
  { rewrite List.map_map. apply List.map_ext_in. intros p Hp.
    rewrite List.Forall_forall in Hnum'. apply Hnum'. exact Hp. }
  assert (Hle : StronglySorted N.le (map to_double (map num (array_sort cmp l)))).
  { pose proof (array_sort_sorted l Hnum) as Hs.
    clear Hnum' Hnd' Heq.
    induction Hs as [|p ps Hs IH Hall]; cbn; constructor; [exact IH|].
    rewrite List.map_map. apply List.Forall_map. exact Hall. }
  split; [exact Heq|]. split; [exact Hle|]. split; [|split; assumption].
  intros Hsafe. apply sorted_le_lt.
  - apply sorted_doubles_safe; assumption.
  - rewrite Heq in Hnd'. apply NoDup_map_inv in Hnd'. exact Hnd'.
Qed.

End SortBySequence.

(** The same for the entries of [GET /logs] of [src/test.js]. *)
Lemma sort_deduplicated l :
  deduplicated l ->
  map pm_sequenceNumber (array_sort by_sequence l)
  = map seq_string (map seq_num (array_sort by_sequence l))
  /\ StronglySorted N.le
       (map to_double (map seq_num (array_sort by_sequence l)))
  /\ (Forall safe_integer (map seq_num (array_sort by_sequence l)) ->
      StronglySorted N.lt (map seq_num (array_sort by_sequence l)))
  /\ deduplicated (array_sort by_sequence l).
Proof.
  intros [Hnd Hnum].
  destruct (sort_by_sequence pm_sequenceNumber by_sequence
              (fun a b => eq_refl) l Hnum Hnd) as (H1 & H2 & H3 & H4 & H5).
  split; [exact H1|]. split; [exact H2|]. split; [exact H3|].
  split; assumption.
Qed.

(** ** The state of one [GET /logs] request *)

Lemma settle_inv {A} (now : A) (current : option A) (x : A) :
  settle now current = Some x ->
  current = Some x \/ (current = None /\ x = now).
Proof. destruct current; cbn; intros [= <-]; auto. Qed.

Lemma handleMessage_inv st msg :
  logs_inv st -> logs_inv (handleMessage st msg).
Proof.
  intros ([Hnd Hnum] & Hseen & Hset). unfold handleMessage.
  case_bool_decide as Hin.
  { split; [split; assumption|]. split; assumption. }
  destruct (parseTopicMessage msg) as [parsed|] eqn:Hp; cbn.
  - pose proof (parse_sequence _ _ Hp) as Hseq.
    split; [split|split]; cbn.
    + rewrite map_app. cbn. apply List.NoDup_app; [exact Hnd| |].
      * constructor; [intros []|constructor].
      * intros s Hs [<-|[]]. apply Hin. rewrite <- Hseq.
        apply in_map_iff in Hs. destruct Hs as (p & Hps & Hp').
        rewrite <- Hps. apply Hseen. exact Hp'.
    + apply Forall_app. split; [exact Hnum|]. constructor; [|constructor].
      unfold numbered. rewrite (seq_num_of_string _ _ Hseq). exact Hseq.
    + intros p [Hp'|[<-|[]]]%in_app_iff.
      * apply elem_of_union_r. auto.
      * apply elem_of_union_l. rewrite Hseq. apply elem_of_singleton. reflexivity.
    + exact Hset.
  - split; [split; assumption|]. split; [|exact Hset]. cbn.
    intros p Hp'. apply elem_of_union_r. auto.
Qed.

Lemma log_line_inv line st : logs_inv st -> logs_inv (log_line line st).
Proof. intros H. exact H. Qed.

Lemma onComplete_inv st : logs_inv st -> logs_inv (onComplete st).
Proof.
  intros (Hd & Hseen & Hset). split; [exact Hd|]. split; [exact Hseen|].
  cbn. intros c Hc. apply settle_inv in Hc. destruct Hc as [Hc|[_ Hc]].
  - apply Hset. exact Hc.
  - injection Hc as ->. exact Hd.
Qed.

Lemma onError_inv err st : logs_inv st -> logs_inv (onError err st).
Proof.
  intros (Hd & Hseen & Hset). split; [exact Hd|]. split; [exact Hseen|].
  cbn. intros c Hc. apply settle_inv in Hc. destruct Hc as [Hc|[_ Hc]].
  - apply Hset. exact Hc.
  - discriminate Hc.
Qed.

Lemma logs_step_inv st ev : logs_inv st -> logs_inv (logs_step st ev).
Proof.
  intros H. destruct ev as [msg|[msg|[err|]]| |]; cbn.
  - apply handleMessage_inv, log_line_inv, H.
  - apply handleMessage_inv, log_line_inv, H.
  - apply onError_inv, H.
  - apply onError_inv, H.
  - apply onComplete_inv, log_line_inv, H.
  - destruct (logs_timer_armed st); [|exact H].
    apply onComplete_inv, log_line_inv, H.
Qed.

Lemma logs_run_inv evs st :
  logs_inv st -> logs_inv (fold_left logs_step evs st).
Proof.
  revert st. induction evs as [|ev evs IH]; intros st H; [exact H|].
  cbn. apply IH, logs_step_inv, H.
Qed.

Lemma logs_start_inv : logs_inv logs_start.
Proof.
  split; [split; constructor|]. split; [intros p []|discriminate].
Qed.

Lemma logs_window_deduplicated evs w :
  logs_window evs = Some w ->
  exists collected,
    logs_settled (logs_replay evs) = Some (inl collected)
    /\ w = array_sort by_sequence collected
    /\ deduplicated collected.
Proof.
  unfold logs_window.
  destruct (logs_settled (logs_replay evs)) as [[c|e]|] eqn:Hs; try discriminate.
  intros [= <-]. exists c. split; [reflexivity|]. split; [reflexivity|].
  pose proof (logs_run_inv (evs ++ [LogsTimerFires]) _ logs_start_inv) as (_ & _ & H).
  apply H. exact Hs.
Qed.

(** ** Settling *)

Lemma logs_step_settled_stable st ev x :
  logs_settled st = Some x -> logs_settled (logs_step st ev) = Some x.
Proof.
  intros Hs.
  assert (Hh : forall st' msg, logs_settled st' = Some x ->
                               logs_settled (handleMessage st' msg) = Some x).
  { intros st' msg H. unfold handleMessage. case_bool_decide; [exact H|].
    destruct (parseTopicMessage msg); exact H. }
  destruct ev as [msg|[msg|[err|]]| |]; cbn.
  - apply Hh. exact Hs.
  - apply Hh. exact Hs.
  - rewrite Hs. reflexivity.
  - rewrite Hs. reflexivity.
  - rewrite Hs. reflexivity.
  - destruct (logs_timer_armed st); cbn; rewrite Hs; reflexivity.
Qed.

Lemma logs_run_settled_stable evs st x :
  logs_settled st = Some x -> logs_settled (fold_left logs_step evs st) = Some x.
Proof.
  revert st. induction evs as [|ev evs IH]; intros st Hs; [exact Hs|].
  cbn. apply IH, logs_step_settled_stable, Hs.
Qed.

Lemma handleMessage_frame st msg :
  logs_settled (handleMessage st msg) = logs_settled st
  /\ logs_timer_armed (handleMessage st msg) = logs_timer_armed st
  /\ releases (logs_trace (handleMessage st msg)) = releases (logs_trace st).
Proof.
  unfold handleMessage, releases. case_bool_decide.
  - cbn. rewrite List.filter_app, length_app. cbn. repeat split. lia.
  - destruct (parseTopicMessage msg); cbn;
      rewrite List.filter_app, length_app; cbn; repeat split; lia.
Qed.

Lemma logs_step_pending_armed st ev :
  (logs_settled st = None -> logs_timer_armed st = true) ->
  logs_settled (logs_step st ev) = None ->
  logs_timer_armed (logs_step st ev) = true.
Proof.
  intros Hinv.
  destruct ev as [msg|[msg|[err|]]| |]; cbn.
  - destruct (handleMessage_frame (log_line "Message received in success callback" st) msg)
      as (-> & -> & _). exact Hinv.
  - destruct (handleMessage_frame (log_line "Message received in error callback" st) msg)
      as (-> & -> & _). exact Hinv.
  - destruct (logs_settled st); discriminate.
  - destruct (logs_settled st); discriminate.
  - destruct (logs_settled st); discriminate.
  - destruct (logs_timer_armed st) eqn:Ht; cbn.
    + destruct (logs_settled st); discriminate.
    + intros H. specialize (Hinv H). congruence.
Qed.

Lemma logs_run_pending_armed evs st :
  (logs_settled st = None -> logs_timer_armed st = true) ->
  logs_settled (fold_left logs_step evs st) = None ->
  logs_timer_armed (fold_left logs_step evs st) = true.
Proof.
  revert st. induction evs as [|ev evs IH]; intros st Hinv; [exact Hinv|].
  cbn. apply IH, logs_step_pending_armed, Hinv.
Qed.

Lemma logs_replay_settles (evs : list logs_event) :
  exists outcome, logs_settled (logs_replay evs) = Some outcome.
Proof.
  unfold logs_replay. rewrite fold_left_app. cbn [fold_left].
  destruct (logs_settled (fold_left logs_step evs logs_start)) as [x|] eqn:Hs.
  - exists x. apply logs_step_settled_stable. exact Hs.
  - eexists. cbn.
    rewrite (logs_run_pending_armed evs logs_start (fun _ => eq_refl) Hs).
    cbn. rewrite Hs. reflexivity.
Qed.

(** ** Replays in which every callback delivers a message that parses *)

Lemma handleMessage_parsed st msg parsed :
  parseTopicMessage msg = Some parsed ->
  seen_exact st ->
  seen_exact (handleMessage st msg)
  /\ forall s, In s (seqs (handleMessage st msg))
               <-> In s (seqs st) \/ s = seq_string (sequenceNumber msg).
Proof.
  intros Hp Hj. pose proof (parse_sequence _ _ Hp) as Hseq.
  unfold handleMessage. case_bool_decide as Hin.
  - split; [exact Hj|]. intros s. unfold seqs. cbn.
    split; [auto|]. intros [H| ->]; [exact H|]. apply Hj. exact Hin.
  - rewrite Hp. unfold seen_exact, seqs. cbn. split; intros s.
    + rewrite elem_of_union, elem_of_singleton, map_app, in_app_iff. cbn.
      rewrite (Hj s), Hseq. unfold seqs. intuition congruence.
    + rewrite map_app, in_app_iff. cbn. rewrite Hseq. intuition congruence.
Qed.

Lemma parses_inv ev :
  parses ev = true ->
  exists msg parsed line,
    delivery ev = Some msg /\ parseTopicMessage msg = Some parsed
    /\ forall st, logs_step st ev = handleMessage (log_line line st) msg.
Proof.
  unfold parses.
  destruct ev as [msg|[msg|[err|]]| |]; cbn; try discriminate;
    destruct (parseTopicMessage msg) as [parsed|] eqn:Hp; try discriminate;
    intros _; exists msg, parsed; eexists; repeat split; exact Hp.
Qed.

Lemma deliveries_run evs st :
  forallb parses evs = true ->
  seen_exact st ->
  logs_settled (fold_left logs_step evs st) = logs_settled st
  /\ logs_timer_armed (fold_left logs_step evs st) = logs_timer_armed st
  /\ seen_exact (fold_left logs_step evs st)
  /\ forall s, In s (seqs (fold_left logs_step evs st))
               <-> In s (seqs st)
                   \/ exists ev msg, In ev evs /\ delivery ev = Some msg
                                     /\ s = seq_string (sequenceNumber msg).
Proof.
  revert st. induction evs as [|ev evs IH]; intros st Hall Hj.
  - cbn. split; [reflexivity|]. split; [reflexivity|]. split; [exact Hj|].
    intros s. split; [auto|]. intros [H|(ev & msg & [] & _)]. exact H.
  - cbn in Hall. apply andb_true_iff in Hall. destruct Hall as [Hev Hall].
    destruct (parses_inv ev Hev) as (msg & parsed & line & Hd & Hp & Hstep).
    cbn [fold_left]. rewrite Hstep.
    destruct (handleMessage_parsed (log_line line st) msg parsed Hp Hj) as [Hj' Hs'].
    destruct (handleMessage_frame (log_line line st) msg) as (Hset & Harm & _).
    destruct (IH _ Hall Hj') as (H1 & H2 & H3 & H4).
    split; [rewrite H1, Hset; reflexivity|].
    split; [rewrite H2, Harm; reflexivity|].
    split; [exact H3|].
    intros s. rewrite H4, Hs'. split.
    + intros [[H| ->]|(ev' & msg' & Hin & Hd' & ->)]; auto.
      * right. exists ev, msg. split; [left; reflexivity|auto].
      * right. exists ev', msg'. split; [right; exact Hin|auto].
    + intros [H|(ev' & msg' & [<-|Hin] & Hd' & ->)]; auto.
      * left. right. congruence.
      * right. exists ev', msg'. auto.
Qed.

Lemma deliveries_window evs :
  forallb parses evs = true ->
  logs_window evs
  = Some (array_sort by_sequence (messages (fold_left logs_step evs logs_start)))
  /\ forall s, In s (seqs (fold_left logs_step evs logs_start))
               <-> exists ev msg, In ev evs /\ delivery ev = Some msg
                                  /\ s = seq_string (sequenceNumber msg).
Proof.
  intros Hall.
  assert (Hj : seen_exact logs_start).
  { intros s. cbn. split; [intros H%not_elem_of_empty; contradiction|intros []]. }
  destruct (deliveries_run evs logs_start Hall Hj) as (H1 & H2 & H3 & H4).
  split.
  - unfold logs_window, logs_replay. rewrite fold_left_app. cbn [fold_left logs_step].
    rewrite H2. cbn. rewrite H1. cbn. reflexivity.
  - intros s. rewrite H4. cbn. intuition.
Qed.

(* ===================================================================== *)
(** * The claims about replay                                            *)
(* ===================================================================== *)

Lemma timer_settles (expectedCount : option nat) (st : Replay) :
  settled st = None -> timer_armed st = true ->
  settled (hedera_step expectedCount st TimerFires) = Some (inl (logs st)).
Proof. intros Hs Ht. cbn. rewrite Ht. cbn. rewrite Hs. reflexivity. Qed.

Lemma logs_timer_settles (st : LogsReplay) :
  logs_settled st = None -> logs_timer_armed st = true ->
  logs_settled (logs_step st LogsTimerFires) = Some (inl (messages st)).
Proof. intros Hs Ht. cbn. rewrite Ht. cbn. rewrite Hs. reflexivity. Qed.

(** C4. A replay that is still pending when its deadline comes resolves
    with the entries collected so far, whatever arrives afterwards: the
    promise of [getHederaHashes] is fulfilled with the [logs] array as it
    stands, the promise of [GET /logs] with the [messages] array as it
    stands, and [GET /logs] answers 200. Nothing is rejected or thrown. *)
Theorem deadline_returns_partial (expectedCount : option nat)
    (events later : list hedera_event) (levents llater : list logs_event) :
  settled (fold_left (hedera_step expectedCount) events replay_start) = None ->
  logs_settled (fold_left logs_step levents logs_start) = None ->
  settled (getHederaHashes expectedCount (events ++ TimerFires :: later))
  = Some (inl (logs (fold_left (hedera_step expectedCount) events replay_start)))
  /\ settled (getHederaHashes expectedCount events)
     = Some (inl (logs (fold_left (hedera_step expectedCount) events replay_start)))
  /\ logs_settled (logs_replay (levents ++ LogsTimerFires :: llater))
     = Some (inl (messages (fold_left logs_step levents logs_start)))
  /\ logs_window levents
     = Some (array_sort by_sequence
               (messages (fold_left logs_step levents logs_start)))
  /\ status (get_logs (levents ++ LogsTimerFires :: llater)) = 200%Z.
Proof.
  intros Hs Hls.
  assert (Ha : timer_armed (fold_left (hedera_step expectedCount) events replay_start) = true).
  { apply run_pending_armed; [reflexivity | exact Hs]. }
  assert (Hla : logs_timer_armed (fold_left logs_step levents logs_start) = true).
  { apply logs_run_pending_armed; [reflexivity | exact Hls]. }
  assert (H1 : logs_settled (logs_replay (levents ++ LogsTimerFires :: llater))
               = Some (inl (messages (fold_left logs_step levents logs_start)))).
  { unfold logs_replay. rewrite <- app_assoc, fold_left_app. cbn [app fold_left].
    apply logs_run_settled_stable, logs_timer_settles; assumption. }
  split; [|split; [|split; [exact H1|split]]].
  - unfold getHederaHashes. rewrite <- app_assoc, fold_left_app. cbn [app fold_left].
    apply run_settled_stable, timer_settles; assumption.
  - unfold getHederaHashes. rewrite fold_left_app. cbn [fold_left].
    apply timer_settles; assumption.
  - unfold logs_window, logs_replay. rewrite fold_left_app. cbn [fold_left].
    rewrite logs_timer_settles by assumption. reflexivity.
  - unfold get_logs. rewrite H1. reflexivity.
Qed.

Lemma deadline_returns_partial_witness :
  settled (getHederaHashes None
             ([Message (anchor_of_alice "PATIENT" 1)] ++ TimerFires :: []))
  = Some (inl [mkLog "PATIENT" alice_digest])
  /\ settled (getHederaHashes (Some 5%nat) []) = Some (inl [])
  /\ status (get_logs ([] ++ LogsTimerFires :: [])) = 200%Z.
Proof.
  destruct (deadline_returns_partial None [Message (anchor_of_alice "PATIENT" 1)]
              [] [] [] eq_refl eq_refl) as (H1 & _ & _ & _ & H5).
  destruct (deadline_returns_partial (Some 5%nat) [] [] [] [] eq_refl eq_refl)
    as (_ & H2 & _).
  split; [exact H1|]. split; [exact H2 | exact H5].
Defined.

Lemma decode_first_two (content : string) :
  decode content = first_two_segments content.
Proof.
  unfold decode, first_two_segments. rewrite split_on_first.
  destruct (split_first pipe content) as [[t rest]|]; [|reflexivity].
  rewrite split_on_first.
  destruct (split_first pipe rest) as [[h more]|]; reflexivity.
Qed.

Lemma collect_well_formed (ms : list TopicMessage) :
  collect ms = well_formed_entries ms.
Proof.
  unfold collect, well_formed_entries. apply flat_map_ext. intros m.
  rewrite decode_first_two. reflexivity.
Qed.

(** C5, the claim as stated, fails: the contents [PATIENT||ab] split at
    the first [|] into two non-empty parts, [PATIENT] and [|ab], and the
    replay does not return the entry. *)
Lemma well_formed_entry_is_dropped :
  spec_malformed (contents double_separator_message) = false
  /\ settled (getHederaHashes None [Message double_separator_message])
     = Some (inl []).
Proof. split; vm_compute; reflexivity. Qed.

(** C5, as the code has it. The contents are split at every [|] and the
    first two segments are read as type and hash. A message without two
    such segments, both non-empty, is skipped: the callback only writes
    a warning, and the replay goes on as if the message had not been
    delivered, so that it returns the same entries and settles the same
    way with and without it. A replay that runs to its deadline returns
    the entry of every other message, in arrival order, as its first two
    segments. Every content that does not split at the first [|] into
    two non-empty parts is among those skipped. *)
Theorem malformed_entries_are_skipped (expectedCount : option nat)
    (st : Replay) (pre post : list hedera_event) (msg : TopicMessage)
    (ms : list TopicMessage) :
  first_two_segments (contents msg) = None ->
  hedera_step expectedCount st (Message msg)
  = mkReplay (logs st) (timer_armed st) (settled st)
      (trace st ++ [ConsoleWarn ("Malformed message: " +:+ contents msg)])
  /\ logs (getHederaHashes expectedCount (pre ++ Message msg :: post))
     = logs (getHederaHashes expectedCount (pre ++ post))
  /\ settled (getHederaHashes expectedCount (pre ++ Message msg :: post))
     = settled (getHederaHashes expectedCount (pre ++ post))
  /\ settled (getHederaHashes None (map Message ms))
     = Some (inl (well_formed_entries ms))
  /\ (forall content,
        spec_malformed content = true -> first_two_segments content = None).
Proof.
  intros Hm. rewrite <- decode_first_two in Hm.
  assert (Hstep : forall st', hedera_step expectedCount st' (Message msg)
                  = mkReplay (logs st') (timer_armed st') (settled st')
                      (trace st' ++ [ConsoleWarn ("Malformed message: " +:+ contents msg)])).
  { intros st'. cbn. rewrite Hm. reflexivity. }
  split; [apply Hstep|].
  assert (Hv : vars (getHederaHashes expectedCount (pre ++ Message msg :: post))
               = vars (getHederaHashes expectedCount (pre ++ post))).
  { unfold getHederaHashes. rewrite <- !app_assoc.
    rewrite !(fold_left_app _ pre). cbn [app fold_left].
    apply run_vars. rewrite Hstep. reflexivity. }
  unfold vars in Hv. injection Hv as Hl _ Hs.
  split; [exact Hl|]. split; [exact Hs|]. split.
  - unfold getHederaHashes. rewrite fold_left_app, run_messages_unbounded.
    cbn. rewrite collect_well_formed. reflexivity.
  - intros content Hc. rewrite <- decode_first_two.
    apply spec_malformed_decode, Hc.
Qed.

Lemma malformed_entries_are_skipped_witness :
  logs (getHederaHashes None
          ([Message (anchor_of_alice "PATIENT" 1)]
           ++ Message double_separator_message
              :: [Message (anchor_of_alice "ORGAN" 3)]))
  = logs (getHederaHashes None
            ([Message (anchor_of_alice "PATIENT" 1)]
             ++ [Message (anchor_of_alice "ORGAN" 3)])).
Proof.
  exact (proj1 (proj2
    (malformed_entries_are_skipped None replay_start
       [Message (anchor_of_alice "PATIENT" 1)]
       [Message (anchor_of_alice "ORGAN" 3)] double_separator_message []
       eq_refl))).
Defined.

(** C7, as the code has it. Point verification calls [getHederaHashes()]
    as bulk verification does, with no expected count: however many
    messages arrive, matching or not, the promise stays pending; it is
    fulfilled when the timer fires, with every entry decoded until then,
    or rejected by a subscription error before that; and [valid] is
    computed from the whole list. *)
Theorem point_verification_replays_until_deadline (req_body : jsval)
    (ms : list TopicMessage) (error : string) (later : list hedera_event)
    (w : World) :
  settled (fold_left (hedera_step None) (map Message ms) replay_start) = None
  /\ settled (getHederaHashes None (map Message ms)) = Some (inl (collect ms))
  /\ settled (getHederaHashes None
               (map Message ms ++ SubscriptionError error :: later))
     = Some (inr error)
  /\ exists r w',
       post_verify req_body (map Message ms) w = (inl r, w')
       /\ (status r = 200%Z ->
           exists computed,
             get_prop (body r) "computedHash" = Some (JStr computed)
             /\ get_prop (body r) "valid"
                = Some (JBool (some_hash computed (collect ms)))).
Proof.
  assert (Hp : settled (fold_left (hedera_step None) (map Message ms) replay_start) = None).
  { rewrite run_messages_unbounded. reflexivity. }
  assert (Hs : settled (getHederaHashes None (map Message ms)) = Some (inl (collect ms))).
  { unfold getHederaHashes. rewrite fold_left_app, run_messages_unbounded.
    reflexivity. }
  split; [exact Hp|]. split; [exact Hs|]. split.
  { unfold getHederaHashes. rewrite <- app_assoc, fold_left_app.
    cbn [app fold_left]. apply run_settled_stable.
    cbn. rewrite Hp. reflexivity. }
  destruct (post_verify_inv req_body (map Message ms) w) as (r & w' & Hr & _ & _ & H).
  exists r, w'. split; [exact Hr|]. intros H200.
  destruct (H H200) as (l & Hl & [(p & _ & _ & Hb)|(o & _ & _ & Hb)]);
    rewrite Hs in Hl; injection Hl as <-; rewrite Hb;
    eexists; split; reflexivity.
Qed.

(** C7, the claim as stated, fails: the first message delivered carries
    the hash looked for, and the replay is still pending after it; it
    goes on to decode the next message and is fulfilled only when the
    timer fires. *)
Lemma match_does_not_stop_replay :
  settled (fold_left (hedera_step None)
             [Message (anchor_of_alice "PATIENT" 1)] replay_start) = None
  /\ getHederaHashes None [Message (anchor_of_alice "PATIENT" 1);
                           Message (anchor_of_alice "ORGAN" 2)]
     = mkReplay [mkLog "PATIENT" alice_digest; mkLog "ORGAN" alice_digest] false
         (Some (inl [mkLog "PATIENT" alice_digest; mkLog "ORGAN" alice_digest]))
         [ConsoleWarn "Timeout reached, resolving with partial logs."; Resolve].
Proof. vm_compute. split; reflexivity. Qed.

(** C8. [getHederaHashes] drops the handle that [query.subscribe]
    returns: whatever the subscription delivers and however the promise
    ends, at the deadline, at the expected count or on an error, the
    replay has released its subscription zero times, where the claim asks
    for exactly once. *)
Theorem verification_replay_never_unsubscribes (expectedCount : option nat)
    (events : list hedera_event) :
  releases (trace (getHederaHashes expectedCount events)) = 0%nat
  /\ exists outcome, settled (getHederaHashes expectedCount events) = Some outcome.
Proof.
  split.
  - unfold getHederaHashes. rewrite run_releases. reflexivity.
  - unfold getHederaHashes. rewrite fold_left_app. cbn [fold_left].
    destruct (settled (fold_left (hedera_step expectedCount) events replay_start))
      as [x|] eqn:Hs.
    + exists x. apply step_settled_stable. exact Hs.
    + eexists. apply timer_settles; [exact Hs|].
      apply run_pending_armed; [reflexivity | exact Hs].
Qed.

(** The sibling replay of [GET /logs] does release: the callback that
    settles a pending promise calls [cleanup], which unsubscribes once. *)
Lemma logs_replay_releases_at_settle (evs : list logs_event) (ev : logs_event) :
  forallb parses evs = true ->
  delivery ev = None ->
  releases (logs_trace (fold_left logs_step evs logs_start)) = 0%nat
  /\ releases (logs_trace (fold_left logs_step (evs ++ [ev]) logs_start)) = 1%nat.
Proof.
  intros Hall Hev.
  assert (H0 : forall l st, forallb parses l = true ->
                 releases (logs_trace (fold_left logs_step l st))
                 = releases (logs_trace st)).
  { induction l as [|e l IH]; intros st Hl; [reflexivity|].
    cbn in Hl. apply andb_true_iff in Hl. destruct Hl as [He Hl].
    cbn [fold_left]. rewrite (IH _ Hl).
    destruct (parses_inv e He) as (msg & parsed & line & _ & _ & Hstep).
    rewrite Hstep.
    destruct (handleMessage_frame (log_line line st) msg) as (_ & _ & ->).
    unfold releases. cbn. rewrite List.filter_app, length_app. cbn. lia. }
  assert (Hj : seen_exact logs_start).
  { intros s. cbn. split; [intros H%not_elem_of_empty; contradiction|intros []]. }
  destruct (deliveries_run evs logs_start Hall Hj) as (_ & Harm & _).
  split; [rewrite H0 by exact Hall; reflexivity|].
  rewrite fold_left_app. cbn [fold_left].
  specialize (H0 evs logs_start Hall). cbn in H0.
  unfold releases in *.
  destruct ev as [msg|[msg|[err|]]| |]; try discriminate; cbn;
    rewrite ?Harm; cbn;
    rewrite ?List.filter_app, ?length_app; cbn;
    rewrite ?List.filter_app, ?length_app; cbn; lia.
Qed.

(** [cleanup] has no guard of its own: on a trace in which the third
    callback still runs after the timer has fired, it unsubscribes a
    second time. *)
Example logs_cleanup_is_not_guarded :
  releases (logs_trace (logs_replay [LogsTimerFires; ThirdCallback])) = 2%nat
  /\ releases (logs_trace (logs_replay [ThirdCallback; LogsTimerFires])) = 1%nat.
Proof. vm_compute. split; reflexivity. Qed.

Lemma filter_one_of_nodup {A} (f : A -> string) (s : string) (l : list A) :
  List.NoDup (map f l) -> In s (map f l) ->
  length (List.filter (fun p => String.eqb (f p) s) l) = 1%nat.
Proof.
  induction l as [|x l IH]; cbn; intros Hnd Hin; [contradiction|].
  apply List.NoDup_cons_iff in Hnd. destruct Hnd as [Hnot Hnd].
  destruct (String.eqb_spec (f x) s) as [Heq|Hne].
  - cbn. f_equal. subst s.
    clear IH Hin Hnd. induction l as [|y l IH]; cbn; [reflexivity|].
    destruct (String.eqb_spec (f y) (f x)) as [Heq|Hne].
    + exfalso. apply Hnot. left. exact Heq.
    + apply IH. intros H. apply Hnot. right. exact H.
  - destruct Hin as [Heq|Hin]; [contradiction|]. apply IH; assumption.
Qed.

(** C2, the claim as stated, fails: the replay of the verification
    endpoints receives the same entry twice, with the same sequence
    number, and returns it twice. *)
Lemma verification_replay_keeps_duplicates :
  settled (getHederaHashes None [Message (anchor_of_alice "PATIENT" 5);
                                 Message (anchor_of_alice "PATIENT" 5)])
  = Some (inl [mkLog "PATIENT" alice_digest; mkLog "PATIENT" alice_digest]).
Proof. vm_compute. reflexivity. Qed.

(** C2, as the code has it. The replay of [GET /logs] keys entries by
    sequence number: its window never holds two entries with the same
    sequence number; when every delivery parses, it holds exactly one
    entry for each sequence number delivered, however many times and on
    whichever callback it came; and a delivery whose number was seen
    before only writes a console line. The replay of the verification
    endpoints does not deduplicate: it returns one entry for each
    well-formed delivery, and a repeated entry leaves every verdict as it
    was. *)
Theorem logs_replay_deduplicates (evs : list logs_event)
    (ms1 ms2 ms3 : list TopicMessage) (dup : TopicMessage) :
  (forall w, logs_window evs = Some w -> List.NoDup (map pm_sequenceNumber w))
  /\ (forallb parses evs = true ->
      exists w,
        logs_window evs = Some w
        /\ forall ev msg,
             In ev evs -> delivery ev = Some msg ->
             length (List.filter
                       (fun p => String.eqb (pm_sequenceNumber p)
                                            (seq_string (sequenceNumber msg))) w)
             = 1%nat)
  /\ (forall st msg,
        seq_string (sequenceNumber msg) ∈ seenSequenceNumbers st ->
        handleMessage st msg
        = mkLogsReplay (messages st) (seenSequenceNumbers st)
            (logs_timer_armed st) (logs_settled st)
            (logs_trace st
             ++ [ConsoleLog ("Skipping duplicate message: "
                             +:+ seq_string (sequenceNumber msg))]))
  /\ settled (getHederaHashes None (map Message (ms1 ++ dup :: ms2 ++ dup :: ms3)))
     = Some (inl (collect (ms1 ++ dup :: ms2 ++ dup :: ms3)))
  /\ (forall computed,
        some_hash computed (collect (ms1 ++ dup :: ms2 ++ dup :: ms3))
        = some_hash computed (collect (ms1 ++ dup :: ms2 ++ ms3))).
Proof.
  split; [|split; [|split; [|split]]].
  - intros w Hw.
    destruct (logs_window_deduplicated evs w Hw) as (c & _ & -> & Hd).
    destruct (sort_deduplicated c Hd) as (_ & _ & _ & [Hnd _]). exact Hnd.
  - intros Hall.
    destruct (deliveries_window evs Hall) as [Hw Hin].
    eexists. split; [exact Hw|]. intros ev msg Hev Hmsg.
    assert (Hd : deduplicated (messages (fold_left logs_step evs logs_start))).
    { exact (proj1 (logs_run_inv evs _ logs_start_inv)). }
    destruct (sort_deduplicated _ Hd) as (_ & _ & _ & [Hnd _]).
    apply filter_one_of_nodup; [exact Hnd|].
    eapply Permutation_in.
    + apply Permutation_map. symmetry. apply array_sort_perm.
    + apply Hin. exists ev, msg. auto.
  - intros st msg Hseen. unfold handleMessage.
    rewrite bool_decide_eq_true_2 by exact Hseen. reflexivity.
  - unfold getHederaHashes. rewrite fold_left_app, run_messages_unbounded.
    reflexivity.
  - intros computed. apply eq_true_iff_eq. rewrite !some_hash_spec.
    assert (Hsame : forall m : TopicMessage,
              In m (ms1 ++ dup :: ms2 ++ dup :: ms3)
              <-> In m (ms1 ++ dup :: ms2 ++ ms3)).
    { intros m. rewrite !in_app_iff. cbn. rewrite !in_app_iff. cbn. tauto. }
    unfold collect.
    split; intros (l & Hl & Hh); exists l; (split; [|exact Hh]);
      apply in_flat_map in Hl; destruct Hl as (m & Hm & Hlm);
      apply in_flat_map; exists m; (split; [apply Hsame; exact Hm | exact Hlm]).
Qed.

Lemma logs_replay_deduplicates_witness :
  exists w,
    logs_window [FirstCallback (anchor_of_alice "PATIENT" 5);
                 SecondCallback (inl (anchor_of_alice "PATIENT" 5))] = Some w
    /\ length (List.filter
                 (fun p => String.eqb (pm_sequenceNumber p) (seq_string 5)) w)
       = 1%nat.
Proof.
  destruct (logs_replay_deduplicates
              [FirstCallback (anchor_of_alice "PATIENT" 5);
               SecondCallback (inl (anchor_of_alice "PATIENT" 5))]
              [] [] [] malformed_message) as (_ & H & _).
  destruct (H eq_refl) as (w & Hw & Hone).
  exists w. split; [exact Hw|].
  apply (Hone (FirstCallback (anchor_of_alice "PATIENT" 5))
              (anchor_of_alice "PATIENT" 5));
    [left; reflexivity | reflexivity].
Defined.

Lemma get_logs_window (evs : list logs_event) (w : list ParsedMessage) :
  logs_window evs = Some w ->
  get_logs evs
  = mkResponse 200
      (JObj [("success", JBool true); ("count", JNum (Z.of_nat (length w)));
             ("messages", JArr (map json_of_message w))]).
Proof.
  unfold logs_window, get_logs.
  destruct (logs_settled (logs_replay evs)) as [[c|e]|]; try discriminate.
  intros [= <-]. reflexivity.
Qed.























(** The window of that replay: sequence number 5 comes before 12 although
    12 arrived first. *)
Example logs_window_5_before_12 :
  option_map (map pm_sequenceNumber)
    (logs_window [FirstCallback (anchor_of_alice "ORGAN" 12);
                  SecondCallback (inl (anchor_of_alice "PATIENT" 5));
                  FirstCallback (anchor_of_alice "ORGAN" 12)])
  = Some ["5"; "12"].
Proof. vm_compute. reflexivity. Qed.

(* ===================================================================== *)
(** * Further properties of the handlers and of the two replays        *)
(* ===================================================================== *)

Lemma hex_digit_is_hex d : is_hex (SHA256.hex_digit d) = true.
Proof.
  unfold SHA256.hex_digit.
  destruct (Z.to_nat d) as [|[|[|[|[|[|[|[|[|[|[|[|[|[|[|[|n]]]]]]]]]]]]]]]];
    try reflexivity.
  cbn. destruct n; reflexivity.
Qed.

Lemma hex_of_word_shape n w :
  String.length (SHA256.hex_of_word n w) = n
  /\ all_hex (SHA256.hex_of_word n w) = true.
Proof.
  induction n as [|n [IH1 IH2]]; cbn [SHA256.hex_of_word String.length all_hex].
  - split; reflexivity.
  - rewrite IH1, IH2, hex_digit_is_hex. split; reflexivity.
Qed.

Lemma length_append (a b : string) :
  String.length (a ++ b)%string = (String.length a + String.length b)%nat.
Proof.
  induction a as [|c a IH]; simpl; [reflexivity|].
  f_equal. exact IH.
Qed.

Lemma all_hex_append (a b : string) :
  all_hex (a ++ b)%string = all_hex a && all_hex b.
Proof.
  induction a as [|c a IH]; simpl; [reflexivity|].
  rewrite IH, andb_assoc. reflexivity.
Qed.

Lemma compress_length h block :
  length h = 8%nat -> length (SHA256.compress h block) = 8%nat.
Proof.
  intros Hh. unfold SHA256.compress.
  rewrite length_map, length_combine, Hh. reflexivity.
Qed.

Lemma digest_words_length msg : length (SHA256.digest_words msg) = 8%nat.
Proof.
  unfold SHA256.digest_words.
  generalize (SHA256.blocks
                (length (SHA256.words_of_bytes (length msg + 72) (SHA256.pad msg)))
                (SHA256.words_of_bytes (length msg + 72) (SHA256.pad msg))).
  intros bs.
  assert (H : length SHA256.H0 = 8%nat) by reflexivity.
  revert H. generalize SHA256.H0.
  induction bs as [|b bs IH]; intros h Hh; cbn [fold_left]; [exact Hh|].
  apply IH, compress_length, Hh.
Qed.

Lemma hexdigest_shape s :
  String.length (SHA256.hexdigest s) = 64%nat
  /\ all_hex (SHA256.hexdigest s) = true.
Proof.
  unfold SHA256.hexdigest.
  pose proof (digest_words_length (SHA256.bytes_of_string s)) as Hl.
  revert Hl. generalize (SHA256.digest_words (SHA256.bytes_of_string s)).
  assert (H : forall ws : list Z,
            String.length (fold_right (fun w acc => (SHA256.hex_of_word 8 w ++ acc)%string)
                                      EmptyString ws) = (8 * length ws)%nat
            /\ all_hex (fold_right (fun w acc => (SHA256.hex_of_word 8 w ++ acc)%string)
                                   EmptyString ws) = true).
  { induction ws as [|w ws [IH1 IH2]]; cbn [fold_right length].
    - split; reflexivity.
    - rewrite length_append, all_hex_append, IH1, IH2.
      destruct (hex_of_word_shape 8 w) as [-> ->]. split; [lia | reflexivity]. }
  intros ws Hws. destruct (H ws) as [H1 H2]. rewrite H1, Hws. split; [reflexivity | exact H2].
Qed.

(** X1. [hashData] throws on [undefined] and on nothing else; whenever it
    returns, the digest is a string of exactly 64 characters, each a
    lowercase hexadecimal digit. *)
Theorem hashData_is_hex64 (data : jsval) :
  (hashData data = None <-> data = JUndefined)
  /\ forall h, hashData data = Some h ->
               String.length h = 64%nat /\ all_hex h = true.
Proof.
  split.
  - unfold hashData. destruct data; cbn; split; congruence.
  - unfold hashData. intros h Hh.
    destruct (stringify data) as [text|]; [|discriminate].
    injection Hh as <-. apply hexdigest_shape.
Qed.

Lemma hashData_is_hex64_witness :
  String.length alice_digest = 64%nat /\ all_hex alice_digest = true.
Proof.
  apply (proj2 (hashData_is_hex64 alice) alice_digest).
  vm_compute. reflexivity.
Defined.

Lemma all_hex_no_pipe h : all_hex h = true -> split_first pipe h = None.
Proof.
  induction h as [|c h IH]; cbn; [reflexivity|].
  intros [Hc Hh]%andb_true_iff.
  destruct (Ascii.eqb_spec c pipe) as [->|_]; [discriminate Hc|].
  rewrite (IH Hh). reflexivity.
Qed.

Lemma hex_anchor_decodes (h : string) :
  String.length h = 64%nat -> all_hex h = true ->
  decode ("PATIENT|" +:+ h) = Some (mkLog "PATIENT" h)
  /\ decode ("ORGAN|" +:+ h) = Some (mkLog "ORGAN" h).
Proof.
  intros Hlen Hhex.
  assert (Hne : h <> EmptyString) by (intros ->; discriminate Hlen).
  pose proof (all_hex_no_pipe h Hhex) as Hnp.
  split; apply decode_type_hash; try assumption; try discriminate; reflexivity.
Qed.

Lemma digest_of_shape (props : list (string * jsval)) :
  String.length (digest_of (JObj props)) = 64%nat
  /\ all_hex (digest_of (JObj props)) = true.
Proof. unfold digest_of, hashData. cbn [stringify option_map]. apply hexdigest_shape. Qed.

(** X2. What the write path puts on the topic, the replay reads back: for
    every digest [h] that [hashData] returns, the messages [PATIENT|h] and
    [ORGAN|h] are split by [getHederaHashes] into the type and exactly
    [h], and are never taken for malformed. *)
Theorem anchor_message_decodes (data : jsval) (h : string) :
  hashData data = Some h ->
  decode ("PATIENT|" +:+ h) = Some (mkLog "PATIENT" h)
  /\ decode ("ORGAN|" +:+ h) = Some (mkLog "ORGAN" h).
Proof.
  unfold hashData. intros Hh.
  destruct (stringify data) as [text|]; [|discriminate].
  injection Hh as <-. destruct (hexdigest_shape text) as [Hlen Hhex].
  apply hex_anchor_decodes; assumption.
Qed.

Lemma anchor_message_decodes_witness :
  decode ("PATIENT|" +:+ alice_digest) = Some (mkLog "PATIENT" alice_digest)
  /\ decode ("ORGAN|" +:+ alice_digest) = Some (mkLog "ORGAN" alice_digest).
Proof.
  apply (anchor_message_decodes alice alice_digest). vm_compute. reflexivity.
Defined.

(** X3. A property whose value is [undefined] does not count for the hash:
    removing it from the object leaves [hashData] unchanged. In particular
    a patient without [age] is hashed as the object of its [name] and
    [bloodType] alone. *)
Theorem undefined_property_is_not_hashed (before after : list (string * jsval))
    (k : string) (name bloodType : jsval) :
  hashData (JObj (before ++ (k, JUndefined) :: after))
  = hashData (JObj (before ++ after))
  /\ hashData (patient_fields name bloodType JUndefined)
     = hashData (JObj [("name", name); ("bloodType", bloodType)]).
Proof.
  assert (H : forall ps1 ps2,
            hashData (JObj (ps1 ++ (k, JUndefined) :: ps2))
            = hashData (JObj (ps1 ++ ps2))).
  { intros ps1 ps2. unfold hashData. cbn [stringify]. do 5 f_equal.
    induction ps1 as [|[k' v] ps1 IH]; cbn [app]; [reflexivity|].
    rewrite IH. reflexivity. }
  split; [apply H|].
  apply (H [("name", name); ("bloodType", bloodType)] []).
Qed.

Lemma field_of_get_prop (o1 o2 : jsval) (k : string) :
  get_prop o1 k = get_prop o2 k -> field o1 k = field o2 k.
Proof. unfold field. intros ->. reflexivity. Qed.

(** X4. What [POST /patients] anchors depends on three properties of the
    body only: two bodies with the same [name], [bloodType] and [age] --
    whatever else they hold, in whatever order -- leave the same messages
    on the topic; and the same for [POST /organs] with [type],
    [bloodType] and [donorId]. *)
Theorem anchor_reads_three_fields (b1 b2 : jsval) (w : World) :
  (get_prop b1 "name" = get_prop b2 "name" ->
   get_prop b1 "bloodType" = get_prop b2 "bloodType" ->
   get_prop b1 "age" = get_prop b2 "age" ->
   topic (snd (post_patients b1 w)) = topic (snd (post_patients b2 w)))
  /\ (get_prop b1 "type" = get_prop b2 "type" ->
      get_prop b1 "bloodType" = get_prop b2 "bloodType" ->
      get_prop b1 "donorId" = get_prop b2 "donorId" ->
      topic (snd (post_organs b1 w)) = topic (snd (post_organs b2 w))).
Proof.
  split; intros H1 H2 H3; do 2 f_equal.
  - unfold post_patients, Patient_create.
    rewrite H1, H2, H3.
    rewrite (field_of_get_prop _ _ _ H1), (field_of_get_prop _ _ _ H2),
            (field_of_get_prop _ _ _ H3).
    reflexivity.
  - unfold post_organs, Organ_create.
    rewrite H1, H2, H3.
    rewrite (field_of_get_prop _ _ _ H1), (field_of_get_prop _ _ _ H2),
            (field_of_get_prop _ _ _ H3).
    reflexivity.
Qed.

Lemma anchor_reads_three_fields_witness :
  topic (snd (post_patients alice world_up))
  = topic (snd (post_patients
                  (JObj [("age", JNum 30); ("ward", JStr "B2");
                         ("name", JStr "Alice"); ("bloodType", JStr "O+")])
                  world_up)).
Proof.
  apply (proj1 (anchor_reads_three_fields alice
                  (JObj [("age", JNum 30); ("ward", JStr "B2");
                         ("name", JStr "Alice"); ("bloodType", JStr "O+")])
                  world_up)); reflexivity.
Defined.

Lemma get_prop_has_properties (v : jsval) (k : string) :
  get_prop v k = (if has_properties v then Some (field v k) else None).
Proof. destruct v; reflexivity. Qed.

Lemma post_patients_outcome (req_body : jsval) (w : World) :
  post_patients req_body w
  = if has_properties req_body then
      let d := mkPatient (fresh_id w) (field req_body "name")
                 (field req_body "bloodType") (field req_body "age") in
      match ledger_script w with
      | Some txId :: answers =>
          match store_script w with
          | true :: outcomes =>
              (inl (mkResponse 201
                      (JObj [("transactionId", JStr txId);
                             ("hash", JStr (patient_digest d));
                             ("patient", json_of_patient d)])),
               mkWorld (topic w ++ ["PATIENT|" +:+ patient_digest d])
                       (patients w ++ [d]) (organs w) (N.succ (next_id w))
                       answers outcomes)
          | outcomes =>
              (inl (mkResponse 500
                      (JObj [("error", JStr "Failed to log patient to Hedera")])),
               mkWorld (topic w ++ ["PATIENT|" +:+ patient_digest d])
                       (patients w) (organs w) (next_id w) answers
                       (tl outcomes))
          end
      | answers =>
          (inl (mkResponse 500
                  (JObj [("error", JStr "Failed to log patient to Hedera")])),
           mkWorld (topic w) (patients w) (organs w) (next_id w) (tl answers)
                   (store_script w))
      end
    else
      (inl (mkResponse 500
              (JObj [("error", JStr "Failed to log patient to Hedera")])), w).
Proof.
  unfold post_patients, try_catch, bind, js.
  rewrite !get_prop_has_properties.
  destruct (has_properties req_body); cbn [ret throw]; [|reflexivity].
  unfold patient_fields at 1. rewrite hashData_obj. cbn [ret].
  unfold submitToHedera, Patient_create, store_call, patient_digest, patient_fields.
  destruct w as [tp ps os nid ls ss]. cbn.
  destruct ls as [|[tx|] ls]; cbn; try reflexivity.
  destruct ss as [|[|] ss]; cbn; reflexivity.
Qed.

Lemma post_organs_outcome (req_body : jsval) (w : World) :
  post_organs req_body w
  = if has_properties req_body then
      let d := mkOrgan (fresh_id w) (field req_body "type")
                 (field req_body "bloodType") (field req_body "donorId") in
      match ledger_script w with
      | Some txId :: answers =>
          match store_script w with
          | true :: outcomes =>
              (inl (mkResponse 201
                      (JObj [("transactionId", JStr txId);
                             ("hash", JStr (organ_digest d));
                             ("organ", json_of_organ d)])),
               mkWorld (topic w ++ ["ORGAN|" +:+ organ_digest d])
                       (patients w) (organs w ++ [d]) (N.succ (next_id w))
                       answers outcomes)
          | outcomes =>
              (inl (mkResponse 500
                      (JObj [("error", JStr "Failed to log organ to Hedera")])),
               mkWorld (topic w ++ ["ORGAN|" +:+ organ_digest d])
                       (patients w) (organs w) (next_id w) answers
                       (tl outcomes))
          end
      | answers =>
          (inl (mkResponse 500
                  (JObj [("error", JStr "Failed to log organ to Hedera")])),
           mkWorld (topic w) (patients w) (organs w) (next_id w) (tl answers)
                   (store_script w))
      end
    else
      (inl (mkResponse 500
              (JObj [("error", JStr "Failed to log organ to Hedera")])), w).
Proof.
  unfold post_organs, try_catch, bind, js.
  rewrite !get_prop_has_properties.
  destruct (has_properties req_body); cbn [ret throw]; [|reflexivity].
  unfold organ_fields at 1. rewrite hashData_obj. cbn [ret].
  unfold submitToHedera, Organ_create, store_call, organ_digest, organ_fields.
  destruct w as [tp ps os nid ls ss]. cbn.
  destruct ls as [|[tx|] ls]; cbn; try reflexivity.
  destruct ss as [|[|] ss]; cbn; reflexivity.
Qed.

(** X5. [POST /patients] and [POST /organs] always answer, each with 201 or
    with 500 and nothing else; the answer of either is 201 exactly when
    the body has properties (it is neither [undefined] nor [null]), the
    submission to the ledger succeeds and the store accepts the
    document. *)
Theorem write_path_succeeds_iff (req_body : jsval) (w : World) :
  exists rp wp ro wo,
    post_patients req_body w = (inl rp, wp)
    /\ post_organs req_body w = (inl ro, wo)
    /\ (status rp = 201%Z \/ status rp = 500%Z)
    /\ (status ro = 201%Z \/ status ro = 500%Z)
    /\ (status rp = 201%Z
        <-> has_properties req_body = true /\ ledger_fails w = false
            /\ store_fails w = false)
    /\ (status ro = 201%Z
        <-> has_properties req_body = true /\ ledger_fails w = false
            /\ store_fails w = false).
Proof.
  rewrite post_patients_outcome, post_organs_outcome.
  unfold ledger_fails, store_fails.
  destruct (has_properties req_body);
    [destruct (ledger_script w) as [|[tx|] ls];
     [|destruct (store_script w) as [|[|] ss]|]|];
    cbv zeta; do 4 eexists; (split; [reflexivity|]); (split; [reflexivity|]);
    cbn; intuition discriminate.
Qed.



Lemma get_verify_outcome (events : list hedera_event) (w : World) :
  get_verify events w
  = match settled (getHederaHashes None events) with
    | Some (inl hederaLogs) =>
        match store_script w with
        | true :: true :: outcomes =>
            (inl (mkResponse 200 (JArr (bulk_verdicts w hederaLogs))),
             with_store_script w outcomes)
        | true :: outcomes => (inl verification_failed, with_store_script w (tl outcomes))
        | outcomes => (inl verification_failed, with_store_script w (tl outcomes))
        end
    | _ => (inl verification_failed, w)
    end.
Proof.
  unfold get_verify, try_catch. unfold bind at 1. unfold await_hashes.
  destruct (settled (getHederaHashes None events)) as [[hederaLogs|e]|];
    cbn [ret throw]; try reflexivity.
  unfold bind at 1. unfold Patient_find, store_call.
  destruct w as [tp ps os nid ls ss]. cbn [store_script].
  destruct ss as [|[|] ss]; cbn; try reflexivity.
  unfold bind at 1.
  rewrite (forM_digest
             (fun p => patient_fields (p_name p) (p_bloodType p) (p_age p))
             (fun p c => verdict "patient" (p_id p)
                           (bool_decide (c ∈ (list_to_set (map hash hederaLogs) : gset string))) c))
    by (intros; apply hashData_obj).
  unfold bind at 1. unfold Organ_find, store_call. cbn [store_script].
  destruct ss as [|[|] ss]; cbn; try reflexivity.
  unfold bind at 1.
  rewrite (forM_digest
             (fun o => organ_fields (o_type o) (o_bloodType o) (o_donorId o))
             (fun o c => verdict "organ" (o_id o)
                           (bool_decide (c ∈ (list_to_set (map hash hederaLogs) : gset string))) c))
    by (intros; apply hashData_obj).
  cbn. unfold with_store_script, bulk_verdicts. cbn.
  do 4 f_equal; f_equal; apply map_ext; intros x; rewrite set_has_spec; reflexivity.
Qed.

Lemma collect_in (ms : list TopicMessage) (m : TopicMessage) (e : LogEntry) :
  In m ms -> decode (contents m) = Some e -> In e (collect ms).
Proof.
  intros Hm Hd. unfold collect. apply in_flat_map. exists m.
  split; [exact Hm|]. rewrite Hd. left. reflexivity.
Qed.

Lemma messages_settle (ms : list TopicMessage) :
  settled (getHederaHashes None (map Message ms)) = Some (inl (collect ms)).
Proof.
  unfold getHederaHashes. rewrite fold_left_app, run_messages_unbounded.
  reflexivity.
Qed.

Lemma replay_until_deadline (events : list hedera_event)
    (ms : list TopicMessage) :
  until_deadline events = Some ms ->
  settled (getHederaHashes None events) = Some (inl (collect ms)).
Proof.
  unfold getHederaHashes.
  assert (H : forall evs l st,
            until_deadline evs = Some l ->
            settled st = None -> timer_armed st = true ->
            settled (fold_left (hedera_step None) (evs ++ [TimerFires]) st)
            = Some (inl (logs st ++ collect l))).
  { induction evs as [|[msg|error|] evs IH]; intros l st Hu Hs Ht.
    - injection Hu as <-. cbn [app fold_left].
      rewrite (timer_settles None st Hs Ht), app_nil_r. reflexivity.
    - cbn [until_deadline] in Hu.
      destruct (until_deadline evs) as [l'|]; [|discriminate].
      injection Hu as <-. cbn [app fold_left hedera_step].
      unfold collect. cbn [flat_map]. fold (collect l').
      destruct (decode (contents msg)) as [e|].
      + cbn [reached]. rewrite (IH l'); cbn [logs settled timer_armed];
          try assumption; [|reflexivity].
        rewrite <- app_assoc. reflexivity.
      + rewrite (IH l'); cbn [logs settled timer_armed]; try assumption;
          reflexivity.
    - discriminate Hu.
    - injection Hu as <-. cbn [app fold_left].
      rewrite run_settled_stable with (x := inl (logs st));
        [rewrite app_nil_r; reflexivity|].
      apply timer_settles; assumption. }
  intros Hu. rewrite (H events ms replay_start Hu); reflexivity.
Qed.

(** X7. Write, then verify. After [POST /patients] answered 201 for a body
    that is one object with fields of the schema's types, the record is
    in the store, its anchor is on the topic and the hash is in the
    answer; and every later [GET /verify] whose replay delivers that
    anchor before its deadline, with no error of the subscription before
    the deadline, the record still in the store and the store answering,
    returns 200 with the verdict [valid: true] for this record and this
    hash. *)
Theorem anchored_patient_verifies (req_body : jsval) (w w1 : World)
    (r : Response) :
  schema_typed_patient req_body = true ->
  post_patients req_body w = (inl r, w1) ->
  status r = 201%Z ->
  exists d h,
    patients w1 = patients w ++ [d]
    /\ topic w1 = topic w ++ ["PATIENT|" +:+ h]
    /\ get_prop (body r) "hash" = Some (JStr h)
    /\ forall (w2 : World) (events : list hedera_event)
              (ms : list TopicMessage) (m : TopicMessage)
              (outcomes : list bool),
         In d (patients w2) ->
         store_script w2 = true :: true :: outcomes ->
         until_deadline events = Some ms ->
         In m ms -> contents m = "PATIENT|" +:+ h ->
         exists results w3,
           get_verify events w2
           = (inl (mkResponse 200 (JArr results)), w3)
           /\ In (verdict "patient" (p_id d) true h) results.
Proof.
  intros _. rewrite post_patients_outcome.
  destruct (has_properties req_body); [|intros [= <- <-]; discriminate].
  cbv zeta.
  destruct (ledger_script w) as [|[tx|] ls]; try (intros [= <- <-]; discriminate).
  destruct (store_script w) as [|[|] ss]; try (intros [= <- <-]; discriminate).
  intros [= <- <-] _.
  eexists. eexists. split; [reflexivity|]. split; [reflexivity|].
  split; [reflexivity|].
  intros w2 events ms m outcomes Hd Hs Hu Hm Hc.
  rewrite get_verify_outcome, (replay_until_deadline events ms Hu), Hs.
  eexists. eexists. split; [reflexivity|].
  unfold bulk_verdicts. apply in_or_app. left.
  apply in_map_iff. eexists. split; [|exact Hd]. cbn [p_id].
  f_equal.
  apply some_hash_spec. eexists. split.
  - apply (collect_in ms m); [exact Hm|]. rewrite Hc.
    unfold patient_digest, patient_fields.
    apply hex_anchor_decodes; apply digest_of_shape.
  - reflexivity.
Qed.

Lemma anchored_patient_verifies_witness :
  exists d h,
    patients (snd (post_patients alice world_up)) = patients world_up ++ [d]
    /\ topic (snd (post_patients alice world_up))
       = topic world_up ++ ["PATIENT|" +:+ h]
    /\ exists results w3,
         get_verify [Message malformed_message;
                     Message (anchor_of_alice "PATIENT" 1); TimerFires;
                     SubscriptionError "late"]
           (with_store_script (snd (post_patients alice world_up))
              [true; true])
         = (inl (mkResponse 200 (JArr results)), w3)
         /\ In (verdict "patient" (p_id d) true h) results.
Proof.
  destruct (anchored_patient_verifies alice world_up
              (snd (post_patients alice world_up))
              (match fst (post_patients alice world_up) with
               | inl r => r
               | inr _ => verification_failed
               end))
    as (d & h & Hp & Ht & Hh & Hv).
  - reflexivity.
  - vm_compute. reflexivity.
  - vm_compute. reflexivity.
  - exists d, h. split; [exact Hp|]. split; [exact Ht|].
    apply (Hv _ _ [malformed_message; anchor_of_alice "PATIENT" 1]
              (anchor_of_alice "PATIENT" 1) []).
    + cbn [with_store_script patients]. rewrite Hp. apply in_or_app. right.
      left. reflexivity.
    + reflexivity.
    + reflexivity.
    + right. left. reflexivity.
    + vm_compute in Hh. injection Hh as <-. vm_compute. reflexivity.
Defined.

Lemma post_verify_outcome (req_body : jsval) (events : list hedera_event)
    (w : World) :
  post_verify req_body events w
  = if has_properties req_body then
      let type := field req_body "type" in
      let id := field req_body "id" in
      let answer (record_id computed : string) (outcomes : list bool) :=
        match settled (getHederaHashes None events) with
        | Some (inl hederaLogs) =>
            (inl (mkResponse 200
                    (JObj [("record", type); ("id", JStr record_id);
                           ("valid", JBool (some_hash computed hederaLogs));
                           ("computedHash", JStr computed)])),
             with_store_script w outcomes)
        | _ => (inl verification_failed, with_store_script w outcomes)
        end in
      if is_str type "patient" then
        match store_script w with
        | true :: outcomes =>
            match find (fun d => id_matches id (p_id d)) (patients w) with
            | Some r => answer (p_id r) (patient_digest r) outcomes
            | None =>
                (inl (mkResponse 404 (JObj [("error", JStr "Patient not found")])),
                 with_store_script w outcomes)
            end
        | outcomes => (inl verification_failed, with_store_script w (tl outcomes))
        end
      else if is_str type "organ" then
        match store_script w with
        | true :: outcomes =>
            match find (fun d => id_matches id (o_id d)) (organs w) with
            | Some r => answer (o_id r) (organ_digest r) outcomes
            | None =>
                (inl (mkResponse 404 (JObj [("error", JStr "Organ not found")])),
                 with_store_script w outcomes)
            end
        | outcomes => (inl verification_failed, with_store_script w (tl outcomes))
        end
      else
        (inl (mkResponse 400 (JObj [("error", JStr "Invalid type specified")])), w)
    else (inl verification_failed, w).
Proof.
  unfold post_verify, try_catch, js.
  rewrite !get_prop_has_properties.
  destruct (has_properties req_body); [|reflexivity].
  unfold bind at 1. cbn [ret]. unfold bind at 1. cbn [ret]. unfold bind at 1.
  cbv zeta.
  destruct w as [tp ps os nid ls ss].
  destruct (is_str (field req_body "type") "patient");
    [|destruct (is_str (field req_body "type") "organ"); [|reflexivity]].
  - unfold bind at 1. unfold Patient_findById, store_call. cbn [store_script].
    destruct ss as [|[|] ss]; cbn [tl]; try reflexivity.
    cbn [patients].
    destruct (find _ ps) as [r|]; [|reflexivity].
    unfold bind at 1. unfold patient_fields at 1. rewrite hashData_obj. cbn [ret].
    unfold bind at 1. unfold await_hashes.
    destruct (settled (getHederaHashes None events)) as [[l|e]|]; reflexivity.
  - unfold bind at 1. unfold Organ_findById, store_call. cbn [store_script].
    destruct ss as [|[|] ss]; cbn [tl]; try reflexivity.
    cbn [organs].
    destruct (find _ os) as [r|]; [|reflexivity].
    unfold bind at 1. unfold organ_fields at 1. rewrite hashData_obj. cbn [ret].
    unfold bind at 1. unfold await_hashes.
    destruct (settled (getHederaHashes None events)) as [[l|e]|]; reflexivity.
Qed.

Lemma same_records_script w outcomes : same_records w (with_store_script w outcomes).
Proof. repeat split. Qed.

Lemma same_records_refl w : same_records w w.
Proof. repeat split. Qed.

(** X8. Verification only reads: whatever the body and whatever the replay
    delivers, [GET /verify] and [POST /verify] leave the topic, the stored
    patients and organs, the next identifier and the answers of the
    ledger as they were. *)
Theorem verification_reads_only (req_body : jsval) (events : list hedera_event)
    (w : World) :
  same_records w (snd (get_verify events w))
  /\ same_records w (snd (post_verify req_body events w)).
Proof.
  split.
  - rewrite get_verify_outcome.
    destruct (settled (getHederaHashes None events)) as [[l|e]|];
      try apply same_records_refl.
    destruct (store_script w) as [|[|] [|[|] ss]]; apply same_records_script.
  - rewrite post_verify_outcome. cbv zeta.
    destruct (has_properties req_body); [|apply same_records_refl].
    destruct (is_str _ "patient"); [|destruct (is_str _ "organ")];
      try apply same_records_refl;
      (destruct (store_script w) as [|[|] ss]; try apply same_records_script);
      destruct (find _ _); try apply same_records_script;
      destruct (settled (getHederaHashes None events)) as [[l|e]|];
      apply same_records_script.
Qed.

Lemma find_no_match {A} (f : A -> bool) (l : list A) :
  Forall (fun d => f d = false) l -> find f l = None.
Proof.
  induction 1 as [|d l Hd _ IH]; cbn; [reflexivity|]. rewrite Hd. exact IH.
Qed.

Lemma id_matches_other (s doc_id : string) :
  doc_id <> s -> id_matches (JStr s) doc_id = false.
Proof.
  intros H. cbn. apply String.eqb_neq. intros Heq. apply H. symmetry. exact Heq.
Qed.

(** X9. The error answers of [POST /verify], for a body with properties.
    A [type] other than the strings [patient] and [organ] gives 400 before
    the store or the ledger is asked, and the world is unchanged; a known
    type with an [id] that is the string of an ObjectId no stored record
    has gives 404, [Patient not found] or [Organ not found], after one
    call to the store; and a failing store gives 500 [Verification
    failed]. *)
Theorem point_verification_statuses (req_body : jsval)
    (events : list hedera_event) (w : World) (outcomes : list bool)
    (id : string) :
  has_properties req_body = true ->
  (is_str (field req_body "type") "patient" = false ->
   is_str (field req_body "type") "organ" = false ->
   post_verify req_body events w
   = (inl (mkResponse 400 (JObj [("error", JStr "Invalid type specified")])), w))
  /\ (is_str (field req_body "type") "patient" = true ->
      field req_body "id" = JStr id -> object_id_string id = true ->
      store_script w = true :: outcomes ->
      Forall (fun d => p_id d <> id) (patients w) ->
      post_verify req_body events w
      = (inl (mkResponse 404 (JObj [("error", JStr "Patient not found")])),
         with_store_script w outcomes))
  /\ (is_str (field req_body "type") "organ" = true ->
      field req_body "id" = JStr id -> object_id_string id = true ->
      store_script w = true :: outcomes ->
      Forall (fun d => o_id d <> id) (organs w) ->
      post_verify req_body events w
      = (inl (mkResponse 404 (JObj [("error", JStr "Organ not found")])),
         with_store_script w outcomes))
  /\ (store_fails w = true ->
      is_str (field req_body "type") "patient"
      || is_str (field req_body "type") "organ" = true ->
      fst (post_verify req_body events w) = inl verification_failed).
Proof.
  intros Hb. rewrite post_verify_outcome, Hb. cbv zeta.
  split; [|split; [|split]].
  - intros -> ->. reflexivity.
  - intros -> -> _ -> Hno. rewrite find_no_match; [reflexivity|].
    eapply List.Forall_impl; [|exact Hno]. intros d. apply id_matches_other.
  - intros Ho -> _ -> Hno.
    destruct (is_str (field req_body "type") "patient") eqn:Hp.
    + apply is_str_true in Hp. apply is_str_true in Ho. congruence.
    + rewrite Ho, find_no_match; [reflexivity|].
      eapply List.Forall_impl; [|exact Hno]. intros d. apply id_matches_other.
  - unfold store_fails. intros Hs Ht.
    destruct (is_str _ "patient"); [|destruct (is_str _ "organ"); [|discriminate]];
      destruct (store_script w) as [|[|] ss]; try discriminate; reflexivity.
Qed.

Lemma point_verification_statuses_witness :
  post_verify (JObj [("type", JStr "vehicle");
                     ("id", JStr "507f1f77bcf86cd799439011")]) [] world_alice
  = (inl (mkResponse 400 (JObj [("error", JStr "Invalid type specified")])),
     world_alice)
  /\ fst (post_verify (JObj [("type", JStr "patient");
                             ("id", JStr "507f1f77bcf86cd799439011")]) []
                      world_alice)
     = inl (mkResponse 404 (JObj [("error", JStr "Patient not found")])).
Proof.
  split.
  - apply (proj1 (point_verification_statuses
                    (JObj [("type", JStr "vehicle");
                           ("id", JStr "507f1f77bcf86cd799439011")])
                    [] world_alice [] "507f1f77bcf86cd799439011" eq_refl));
      reflexivity.
  - rewrite (proj1 (proj2 (point_verification_statuses
                    (JObj [("type", JStr "patient");
                           ("id", JStr "507f1f77bcf86cd799439011")])
                    [] world_alice [true; true] "507f1f77bcf86cd799439011"
                    eq_refl))); try reflexivity.
    repeat constructor. discriminate.
Defined.

Lemma error_rejects (ms : list TopicMessage) (error : string)
    (later : list hedera_event) :
  settled (getHederaHashes None
             (map Message ms ++ SubscriptionError error :: later))
  = Some (inr error).
Proof.
  unfold getHederaHashes. rewrite <- app_assoc, fold_left_app.
  cbn [app fold_left]. apply run_settled_stable.
  rewrite run_messages_unbounded. reflexivity.
Qed.

(** X10. An error of the subscription rejects the replay whatever was
    collected before and whatever comes later: [GET /verify] answers 500
    [Verification failed] without a call to the store, and [POST /verify]
    never answers 200. *)
Theorem subscription_error_fails_verification (req_body : jsval)
    (ms : list TopicMessage) (error : string) (later : list hedera_event)
    (w : World) :
  get_verify (map Message ms ++ SubscriptionError error :: later) w
  = (inl verification_failed, w)
  /\ exists r w',
       post_verify req_body
         (map Message ms ++ SubscriptionError error :: later) w = (inl r, w')
       /\ status r <> 200%Z.
Proof.
  split.
  - rewrite get_verify_outcome, error_rejects. reflexivity.
  - rewrite post_verify_outcome, error_rejects. cbv zeta.
    destruct (has_properties req_body);
      [|do 2 eexists; split; [reflexivity|discriminate]].
    destruct (is_str _ "patient"); [|destruct (is_str _ "organ")];
      try (do 2 eexists; split; [reflexivity|discriminate]);
      (destruct (store_script w) as [|[|] ss];
       try (do 2 eexists; split; [reflexivity|discriminate]));
      destruct (find _ _); do 2 eexists; split; reflexivity || discriminate.
Qed.

Lemma split_first_sound (sep : ascii) (s a b : string) :
  split_first sep s = Some (a, b) ->
  s = (a +:+ String sep b) /\ split_first sep a = None.
Proof.
  revert a b. induction s as [|c s IH]; intros a b; cbn; [discriminate|].
  destruct (Ascii.eqb_spec c sep) as [->|Hne].
  - intros [= <- <-]. split; reflexivity.
  - destruct (split_first sep s) as [[a' b']|]; [|discriminate].
    intros [= <- <-]. destruct (IH a' b' eq_refl) as [-> Ha].
    split; [reflexivity|]. cbn.
    destruct (Ascii.eqb_spec c sep) as [|_]; [contradiction|].
    rewrite Ha. reflexivity.
Qed.

(** X11. The shape of an entry that [getHederaHashes] keeps: type and hash
    are non-empty and free of the separator, and the content of the message
    is [type|hash], or [type|hash|rest] with the rest dropped. *)
Theorem decode_keeps_first_two_segments (content : string) (entry : LogEntry) :
  decode content = Some entry ->
  type entry <> EmptyString /\ hash entry <> EmptyString
  /\ split_first pipe (type entry) = None
  /\ split_first pipe (hash entry) = None
  /\ (content = (type entry +:+ "|" +:+ hash entry)
      \/ exists rest,
           content = (type entry +:+ "|" +:+ hash entry +:+ "|" +:+ rest)).
Proof.
  unfold decode. rewrite split_on_first.
  destruct (split_first pipe content) as [[t b]|] eqn:Hc; [|discriminate].
  apply split_first_sound in Hc. destruct Hc as [-> Ht].
  rewrite split_on_first.
  destruct (split_first pipe b) as [[h rest]|] eqn:Hb.
  - apply split_first_sound in Hb. destruct Hb as [-> Hh].
    destruct (String.eqb_spec t EmptyString) as [|Hte]; [discriminate|].
    destruct (String.eqb_spec h EmptyString) as [|Hhe]; [discriminate|].
    intros [= <-]. cbn [type hash].
    repeat (split; [assumption|]). right. exists rest. reflexivity.
  - destruct (String.eqb_spec t EmptyString) as [|Hte]; [discriminate|].
    destruct (String.eqb_spec b EmptyString) as [|Hhe]; [discriminate|].
    intros [= <-]. cbn [type hash].
    repeat (split; [assumption|]). left. reflexivity.
Qed.

Lemma decode_keeps_first_two_segments_witness :
  "PATIENT|abc|def" = ("PATIENT" +:+ "|" +:+ "abc")
  \/ exists rest, "PATIENT|abc|def" = ("PATIENT" +:+ "|" +:+ "abc" +:+ "|" +:+ rest).
Proof.
  apply (decode_keeps_first_two_segments "PATIENT|abc|def" (mkLog "PATIENT" "abc")).
  reflexivity.
Defined.

Lemma step_count_zero_one (st : Replay) (ev : hedera_event) :
  hedera_step (Some 0%nat) st ev = hedera_step (Some 1%nat) st ev.
Proof.
  destruct ev as [msg|e|]; try reflexivity.
  cbn [hedera_step]. destruct (decode (contents msg)); [|reflexivity].
  unfold reached. rewrite length_app, Nat.add_1_r. reflexivity.
Qed.

(** X12. [getHederaHashes(0)] does not resolve at once: the count is only
    tested after an entry was pushed, so an expected count of 0 behaves as
    an expected count of 1, and with no well-formed message the promise
    stays pending until the timer resolves it with the empty list. *)
Theorem expected_count_zero_is_one (events : list hedera_event)
    (ms : list TopicMessage) :
  getHederaHashes (Some 0%nat) events = getHederaHashes (Some 1%nat) events
  /\ (collect ms = [] ->
      settled (fold_left (hedera_step (Some 0%nat)) (map Message ms) replay_start)
      = None
      /\ settled (getHederaHashes (Some 0%nat) (map Message ms)) = Some (inl [])).
Proof.
  split.
  - unfold getHederaHashes. generalize replay_start.
    induction (events ++ [TimerFires]) as [|ev evs IH]; intros st; [reflexivity|].
    cbn [fold_left]. rewrite step_count_zero_one. apply IH.
  - intros Hc.
    assert (H : forall st,
              fold_left (hedera_step (Some 0%nat)) (map Message ms) st
              = mkReplay (logs st) (timer_armed st) (settled st)
                  (trace (fold_left (hedera_step (Some 0%nat)) (map Message ms) st))).
    { induction ms as [|m ms IH]; intros st; [destruct st; reflexivity|].
      unfold collect in Hc. cbn [flat_map] in Hc.
      apply app_eq_nil in Hc. destruct Hc as [Hm Hms].
      cbn [map fold_left hedera_step].
      destruct (decode (contents m)); [discriminate|].
      rewrite (IH Hms). reflexivity. }
    split.
    + rewrite H. reflexivity.
    + unfold getHederaHashes. rewrite fold_left_app, H. reflexivity.
Qed.

Lemma expected_count_zero_is_one_witness :
  settled (fold_left (hedera_step (Some 0%nat)) (map Message [malformed_message])
             replay_start) = None
  /\ settled (getHederaHashes (Some 0%nat) (map Message [malformed_message]))
     = Some (inl []).
Proof.
  apply (proj2 (expected_count_zero_is_one [] [malformed_message])).
  reflexivity.
Defined.

Lemma run_below_count (n : nat) (ms : list TopicMessage) (st : Replay) :
  (length (logs st) + length (collect ms) < n)%nat ->
  vars (fold_left (hedera_step (Some n)) (map Message ms) st)
  = (logs st ++ collect ms, timer_armed st, settled st).
Proof.
  revert st. induction ms as [|m ms IH]; intros st Hlt.
  - cbn. rewrite app_nil_r. reflexivity.
  - cbn [map fold_left hedera_step]. unfold collect in *. cbn [flat_map] in *.
    destruct (decode (contents m)) as [e|].
    + cbn [app length] in Hlt. unfold reached.
      rewrite length_app. cbn [length].
      destruct (Nat.leb_spec n (length (logs st) + 1)) as [Hr|Hr]; [lia|].
      rewrite IH; cbn [logs timer_armed settled].
      * rewrite <- app_assoc. reflexivity.
      * rewrite length_app. cbn [length]. lia.
    + cbn [app] in Hlt. rewrite IH; cbn [logs timer_armed settled];
        [reflexivity|exact Hlt].
Qed.

Lemma step_logs_grow (n : option nat) (st : Replay) (ev : hedera_event) :
  exists l, logs (hedera_step n st ev) = logs st ++ l.
Proof.
  destruct ev as [msg|error|]; cbn.
  - destruct (decode (contents msg)) as [e|].
    + destruct (reached _ _); exists [e]; reflexivity.
    + exists []. rewrite app_nil_r. reflexivity.
  - exists []. rewrite app_nil_r. reflexivity.
  - destruct (timer_armed st); exists []; rewrite app_nil_r; reflexivity.
Qed.

Lemma run_logs_grow (n : option nat) (evs : list hedera_event) (st : Replay) :
  exists l, logs (fold_left (hedera_step n) evs st) = logs st ++ l.
Proof.
  revert st. induction evs as [|ev evs IH]; intros st.
  - exists []. rewrite app_nil_r. reflexivity.
  - cbn [fold_left]. destruct (IH (hedera_step n st ev)) as [l ->].
    destruct (step_logs_grow n st ev) as [l' ->].
    exists (l' ++ l). rewrite app_assoc. reflexivity.
Qed.

(** X13. With an expected count [n >= 1], [getHederaHashes] stays pending
    until the [n]-th well-formed message; when that message arrives the
    array holds the first [n] entries and the promise is resolved;
    nothing delivered afterwards rejects or re-settles it, and the first
    [n] entries of the array stay what they were, whatever the callback,
    which is never unsubscribed, pushes after them. *)
Theorem expected_count_ends_replay (n : nat) (ms : list TopicMessage)
    (m : TopicMessage) (e : LogEntry) (later : list hedera_event) :
  S (length (collect ms)) = n ->
  decode (contents m) = Some e ->
  let before := fold_left (hedera_step (Some n)) (map Message ms) replay_start in
  let at_nth := hedera_step (Some n) before (Message m) in
  let final := getHederaHashes (Some n) (map Message ms ++ Message m :: later) in
  settled before = None
  /\ logs at_nth = collect ms ++ [e]
  /\ (exists l, settled at_nth = Some (inl l))
  /\ settled final = settled at_nth
  /\ firstn n (logs final) = collect ms ++ [e].
Proof.
  intros Hn He before at_nth final.
  assert (Hv : vars before = (collect ms, true, None)).
  { unfold before. rewrite run_below_count; [reflexivity|]. cbn. lia. }
  unfold vars in Hv. injection Hv as Hl Ht Hs.
  assert (Hat : logs at_nth = collect ms ++ [e]
                /\ settled at_nth = Some (inl (collect ms ++ [e]))).
  { unfold at_nth. cbn [hedera_step]. rewrite He, Hl, Hs.
    unfold reached. rewrite length_app. cbn [length].
    destruct (Nat.leb_spec n (length (collect ms) + 1)) as [_|Hr]; [|lia].
    split; reflexivity. }
  destruct Hat as [Hlog Hset].
  assert (Hfinal : final = fold_left (hedera_step (Some n))
                             (later ++ [TimerFires]) at_nth).
  { unfold final, getHederaHashes, at_nth, before.
    rewrite <- app_assoc, fold_left_app. reflexivity. }
  split; [exact Hs|]. split; [exact Hlog|].
  split; [eexists; exact Hset|]. split.
  - rewrite Hfinal, Hset. apply run_settled_stable. exact Hset.
  - rewrite Hfinal.
    destruct (run_logs_grow (Some n) (later ++ [TimerFires]) at_nth) as [l ->].
    rewrite Hlog. rewrite firstn_app.
    replace (n - length (collect ms ++ [e]))%nat with 0%nat
      by (rewrite length_app; cbn [length]; lia).
    rewrite firstn_all2 by (rewrite length_app; cbn [length]; lia).
    cbn. rewrite app_nil_r. reflexivity.
Qed.

Lemma expected_count_ends_replay_witness :
  settled (fold_left (hedera_step (Some 2%nat))
             (map Message [anchor_of_alice "PATIENT" 1; malformed_message])
             replay_start) = None
  /\ firstn 2
       (logs (getHederaHashes (Some 2%nat)
                (map Message [anchor_of_alice "PATIENT" 1; malformed_message]
                 ++ Message (anchor_of_alice "ORGAN" 3)
                    :: [Message (anchor_of_alice "ORGAN" 4);
                        SubscriptionError "late"])))
     = [mkLog "PATIENT" alice_digest; mkLog "ORGAN" alice_digest].
Proof.
  destruct (expected_count_ends_replay 2
              [anchor_of_alice "PATIENT" 1; malformed_message]
              (anchor_of_alice "ORGAN" 3) (mkLog "ORGAN" alice_digest)
              [Message (anchor_of_alice "ORGAN" 4); SubscriptionError "late"])
    as (H1 & _ & _ & _ & H5).
  - reflexivity.
  - reflexivity.
  - split; [exact H1 | exact H5].
Defined.

(** ** More on the replay of [GET /logs] *)

Lemma logs_step_pending (st : LogsReplay) (ev : logs_event) :
  logs_settled (logs_step st ev) = None ->
  logs_settled st = None
  /\ releases (logs_trace (logs_step st ev)) = releases (logs_trace st)
  /\ (logs_timer_armed st = true -> delivery ev <> None).
Proof.
  destruct ev as [msg|[msg|[err|]]| |]; cbn [logs_step delivery].
  - destruct (handleMessage_frame (log_line "Message received in success callback" st) msg)
      as (-> & _ & ->).
    cbn. unfold releases. rewrite List.filter_app, length_app. cbn.
    intros H. repeat split; [exact H | lia | discriminate].
  - destruct (handleMessage_frame (log_line "Message received in error callback" st) msg)
      as (-> & _ & ->).
    cbn. unfold releases. rewrite List.filter_app, length_app. cbn.
    intros H. repeat split; [exact H | lia | discriminate].
  - cbn. destruct (logs_settled st); discriminate.
  - cbn. destruct (logs_settled st); discriminate.
  - cbn. destruct (logs_settled st); discriminate.
  - destruct (logs_timer_armed st) eqn:Ha.
    + cbn. destruct (logs_settled st); discriminate.
    + intros H. repeat split; [exact H | discriminate].
Qed.

Lemma logs_pending_unreleased (evs : list logs_event) :
  logs_settled (fold_left logs_step evs logs_start) = None ->
  releases (logs_trace (fold_left logs_step evs logs_start)) = 0%nat.
Proof.
  induction evs as [|ev evs IH] using rev_ind; [reflexivity|].
  rewrite fold_left_app. cbn [fold_left]. intros H.
  destruct (logs_step_pending _ _ H) as (Hp & -> & _). apply IH, Hp.
Qed.

(** X14. While the promise of [GET /logs] is pending nothing has been
    unsubscribed; the first event that is not a message (an error, the
    completion or the timer) settles the promise and unsubscribes exactly
    once. *)
Theorem logs_replay_releases_once (evs : list logs_event) (ev : logs_event) :
  logs_settled (fold_left logs_step evs logs_start) = None ->
  delivery ev = None ->
  releases (logs_trace (fold_left logs_step evs logs_start)) = 0%nat
  /\ releases (logs_trace (fold_left logs_step (evs ++ [ev]) logs_start)) = 1%nat
  /\ exists outcome,
       logs_settled (fold_left logs_step (evs ++ [ev]) logs_start) = Some outcome.
Proof.
  intros Hp Hev.
  pose proof (logs_pending_unreleased evs Hp) as H0.
  pose proof (logs_run_pending_armed evs logs_start (fun _ => eq_refl) Hp) as Ha.
  split; [exact H0|].
  rewrite fold_left_app. cbn [fold_left].
  unfold releases in *.
  destruct ev as [msg|[msg|[err|]]| |]; try discriminate;
    cbn; rewrite ?Ha; cbn; rewrite ?Hp;
    rewrite ?List.filter_app, ?length_app; cbn;
    rewrite ?List.filter_app, ?length_app; cbn;
    (split; [lia | eexists; reflexivity]).
Qed.

Lemma logs_replay_releases_once_witness :
  releases (logs_trace (fold_left logs_step
                          ([FirstCallback malformed_message] ++ [ThirdCallback])
                          logs_start)) = 1%nat.
Proof.
  apply (logs_replay_releases_once [FirstCallback malformed_message] ThirdCallback);
    reflexivity.
Defined.

Lemma signals_keep_messages (evs : list logs_event) (st : LogsReplay) :
  forallb is_signal evs = true ->
  messages (fold_left logs_step evs st) = messages st.
Proof.
  revert st. induction evs as [|ev evs IH]; intros st Hall; [reflexivity|].
  cbn in Hall. apply andb_true_iff in Hall. destruct Hall as [Hev Hall].
  cbn [fold_left]. rewrite (IH _ Hall).
  destruct ev as [msg|[msg|[err|]]| |]; try discriminate Hev; try reflexivity.
  cbn. destruct (logs_timer_armed st); reflexivity.
Qed.

(** X15. How a pending [GET /logs] ends before its deadline. On completion
    of the subscription it answers 200 with the messages collected so far,
    sorted, which is the whole array when no message is delivered after
    the completion. On an error of the subscription it answers 500 with
    [success: false], [Failed to fetch logs] and the error's message, or
    [Unknown subscription error] when the callback was given nothing,
    whatever is delivered afterwards. *)
Theorem logs_replay_ends_at_first_signal (evs later : list logs_event)
    (error : option string) :
  logs_settled (fold_left logs_step evs logs_start) = None ->
  (forallb is_signal later = true ->
   logs_window (evs ++ ThirdCallback :: later)
   = Some (array_sort by_sequence
             (messages (logs_replay (evs ++ ThirdCallback :: later))))
   /\ messages (logs_replay (evs ++ ThirdCallback :: later))
      = messages (fold_left logs_step evs logs_start)
   /\ status (get_logs (evs ++ ThirdCallback :: later)) = 200%Z)
  /\ logs_window (evs ++ SecondCallback (inr error) :: later) = None
  /\ get_logs (evs ++ SecondCallback (inr error) :: later)
     = mkResponse 500
         (JObj [("success", JBool false); ("error", JStr "Failed to fetch logs");
                ("details", JStr (match error with
                                  | Some e => e
                                  | None => "Unknown subscription error"
                                  end))]).
Proof.
  intros Hp.
  assert (H3 : logs_settled (logs_replay (evs ++ ThirdCallback :: later))
               = Some (inl (messages (fold_left logs_step evs logs_start)))).
  { unfold logs_replay. rewrite <- app_assoc, fold_left_app. cbn [app fold_left].
    apply logs_run_settled_stable. cbn. rewrite Hp. reflexivity. }
  assert (H2 : logs_settled (logs_replay (evs ++ SecondCallback (inr error) :: later))
               = Some (inr (match error with
                            | Some e => e
                            | None => "Unknown subscription error"
                            end))).
  { unfold logs_replay. rewrite <- app_assoc, fold_left_app. cbn [app fold_left].
    apply logs_run_settled_stable. destruct error; cbn; rewrite Hp; reflexivity. }
  split.
  - intros Hlater.
    assert (Hm : messages (logs_replay (evs ++ ThirdCallback :: later))
                 = messages (fold_left logs_step evs logs_start)).
    { unfold logs_replay. rewrite <- app_assoc, fold_left_app.
      rewrite signals_keep_messages; [reflexivity|].
      cbn [app forallb is_signal delivery]. rewrite forallb_app, Hlater.
      reflexivity. }
    unfold logs_window, get_logs. rewrite H3, Hm. repeat split; reflexivity.
  - unfold logs_window, get_logs. rewrite H2. split; reflexivity.
Qed.

Lemma logs_replay_ends_at_first_signal_witness :
  status (get_logs ([FirstCallback (anchor_of_alice "PATIENT" 4)]
                    ++ ThirdCallback :: [SecondCallback (inr None)]))
  = 200%Z.
Proof.
  apply (proj1 (logs_replay_ends_at_first_signal
                  [FirstCallback (anchor_of_alice "PATIENT" 4)]
                  [SecondCallback (inr None)] None eq_refl)).
  reflexivity.
Defined.

Lemma handleMessage_entries (Q : ParsedMessage -> Prop) st msg :
  (forall p, parseTopicMessage msg = Some p -> Q p) ->
  all_entries Q st -> all_entries Q (handleMessage st msg).
Proof.
  intros Hq [Hm Hs]. unfold handleMessage.
  case_bool_decide; [split; assumption|].
  destruct (parseTopicMessage msg) as [p|]; [|split; assumption].
  split; [|exact Hs]. cbn. intros p' [Hp'|[<-|[]]]%in_app_iff; auto.
Qed.

Lemma settle_entries (Q : ParsedMessage -> Prop) st st' :
  messages st' = messages st ->
  (logs_settled st' = logs_settled st
   \/ logs_settled st' = settle (inl (messages st)) (logs_settled st)
   \/ exists e, logs_settled st' = settle (inr e) (logs_settled st)) ->
  all_entries Q st -> all_entries Q st'.
Proof.
  intros Hm Hs [H1 H2]. split; [rewrite Hm; exact H1|].
  intros c Hc. destruct Hs as [Hs|[Hs|[e Hs]]]; rewrite Hs in Hc.
  - apply H2, Hc.
  - apply settle_inv in Hc. destruct Hc as [Hc|[_ Hc]]; [apply H2, Hc|].
    injection Hc as ->. exact H1.
  - apply settle_inv in Hc. destruct Hc as [Hc|[_ Hc]]; [apply H2, Hc|discriminate].
Qed.

Lemma logs_step_entries (Q : ParsedMessage -> Prop) st ev :
  (forall msg p, delivery ev = Some msg -> parseTopicMessage msg = Some p -> Q p) ->
  all_entries Q st -> all_entries Q (logs_step st ev).
Proof.
  intros Hq H.
  destruct ev as [msg|[msg|[err|]]| |]; cbn [logs_step].
  - apply handleMessage_entries; [intros p; apply Hq; reflexivity|exact H].
  - apply handleMessage_entries; [intros p; apply Hq; reflexivity|exact H].
  - eapply settle_entries; [| |exact H]; [reflexivity|right; right; eexists; reflexivity].
  - eapply settle_entries; [| |exact H]; [reflexivity|right; right; eexists; reflexivity].
  - eapply settle_entries; [| |exact H]; [reflexivity|right; left; reflexivity].
  - destruct (logs_timer_armed st); [|exact H].
    eapply settle_entries; [| |exact H]; [reflexivity|right; left; reflexivity].
Qed.

Lemma logs_run_entries (Q : ParsedMessage -> Prop) evs st :
  (forall ev msg p, In ev evs -> delivery ev = Some msg ->
                    parseTopicMessage msg = Some p -> Q p) ->
  all_entries Q st -> all_entries Q (fold_left logs_step evs st).
Proof.
  revert st. induction evs as [|ev evs IH]; intros st Hq H; [exact H|].
  cbn [fold_left]. apply IH.
  - intros ev' msg p Hin. apply Hq. right. exact Hin.
  - apply logs_step_entries; [|exact H]. intros msg p. apply Hq. left. reflexivity.
Qed.

(** X16. [GET /logs] invents nothing: every entry of the answer is
    [parseTopicMessage] of a message that one of the callbacks
    received. *)
Theorem logs_window_holds_deliveries (evs : list logs_event)
    (w : list ParsedMessage) (p : ParsedMessage) :
  logs_window evs = Some w ->
  In p w ->
  exists ev msg,
    In ev evs /\ delivery ev = Some msg /\ parseTopicMessage msg = Some p.
Proof.
  unfold logs_window.
  destruct (logs_settled (logs_replay evs)) as [[c|e]|] eqn:Hs; try discriminate.
  intros [= <-] Hp.
  assert (Hc : In p c).
  { eapply Permutation_in; [apply array_sort_perm | exact Hp]. }
  pose (Q := fun p => exists ev msg,
               In ev evs /\ delivery ev = Some msg /\ parseTopicMessage msg = Some p).
  assert (H : all_entries Q (logs_replay evs)).
  { unfold logs_replay. apply logs_run_entries.
    - intros ev msg p' [Hin|[<-|[]]]%in_app_iff Hd Hparse; [|discriminate].
      exists ev, msg. auto.
    - split; [intros p' []|discriminate]. }
  destruct H as [_ H]. exact (H c Hs p Hc).
Qed.

Lemma logs_window_holds_deliveries_witness :
  exists ev msg,
    In ev [FirstCallback (anchor_of_alice "PATIENT" 4)]
    /\ delivery ev = Some msg
    /\ parseTopicMessage msg
       = Some (mkParsed "2024-01-01T00:00:00.000Z" "4"
                 ("PATIENT|" +:+ alice_digest) "00ff" None None).
Proof.
  apply (logs_window_holds_deliveries
           [FirstCallback (anchor_of_alice "PATIENT" 4)]
           [mkParsed "2024-01-01T00:00:00.000Z" "4"
              ("PATIENT|" +:+ alice_digest) "00ff" None None]).
  - vm_compute. reflexivity.
  - left. reflexivity.
Defined.

Lemma handleMessage_vars st1 st2 msg :
  logs_vars st1 = logs_vars st2 ->
  logs_vars (handleMessage st1 msg) = logs_vars (handleMessage st2 msg).
Proof.
  destruct st1 as [m1 s1 a1 r1 t1], st2 as [m2 s2 a2 r2 t2].
  unfold logs_vars. cbn. intros [= -> -> -> ->].
  unfold handleMessage. cbn.
  case_bool_decide; [reflexivity|].
  destruct (parseTopicMessage msg); reflexivity.
Qed.

Lemma logs_step_vars st1 st2 e1 e2 :
  same_delivery e1 e2 ->
  logs_vars st1 = logs_vars st2 ->
  logs_vars (logs_step st1 e1) = logs_vars (logs_step st2 e2).
Proof.
  intros He H.
  assert (Hl : forall l1 l2, logs_vars (log_line l1 st1) = logs_vars (log_line l2 st2)).
  { intros l1 l2. exact H. }
  unfold same_delivery in He.
  destruct e1 as [m1|[m1|[err1|]]| |], e2 as [m2|[m2|[err2|]]| |];
    cbn [delivery] in He; try contradiction; try discriminate He;
    try (subst m2; cbn [logs_step]; apply handleMessage_vars, Hl);
    try (injection He as <-);
    destruct st1 as [ms1 s1 a1 r1 t1], st2 as [ms2 s2 a2 r2 t2];
    unfold logs_vars in *; cbn in *; injection H as -> -> -> ->;
    try reflexivity.
  destruct a2; reflexivity.
Qed.

(** X17. It does not matter through which of the two callbacks a message
    arrives: two replays that receive the same messages and signals in
    the same order, each message through whichever callback, give the
    same answer of [GET /logs]. *)
Theorem logs_window_ignores_callback (evs1 evs2 : list logs_event) :
  Forall2 same_delivery evs1 evs2 ->
  logs_window evs1 = logs_window evs2
  /\ get_logs evs1 = get_logs evs2.
Proof.
  intros Hsame.
  assert (H : forall st1 st2,
            logs_vars st1 = logs_vars st2 ->
            logs_vars (fold_left logs_step (evs1 ++ [LogsTimerFires]) st1)
            = logs_vars (fold_left logs_step (evs2 ++ [LogsTimerFires]) st2)).
  { induction Hsame as [|e1 e2 l1 l2 He _ IH]; intros st1 st2 Hv.
    - cbn [app fold_left]. apply logs_step_vars; [reflexivity|exact Hv].
    - cbn [app fold_left]. apply IH, logs_step_vars; assumption. }
  assert (Hs : logs_settled (logs_replay evs1) = logs_settled (logs_replay evs2)).
  { specialize (H logs_start logs_start eq_refl).
    unfold logs_vars in H. injection H as _ _ _ H. exact H. }
  unfold logs_window, get_logs. rewrite Hs. split; reflexivity.
Qed.

Lemma logs_window_ignores_callback_witness :
  logs_window [FirstCallback (anchor_of_alice "PATIENT" 4);
               SecondCallback (inl (anchor_of_alice "ORGAN" 5));
               FirstCallback (anchor_of_alice "PATIENT" 4)]
  = logs_window [FirstCallback (anchor_of_alice "PATIENT" 4);
                 FirstCallback (anchor_of_alice "ORGAN" 5);
                 SecondCallback (inl (anchor_of_alice "PATIENT" 4))].
Proof.
  apply (logs_window_ignores_callback
           [FirstCallback (anchor_of_alice "PATIENT" 4);
            SecondCallback (inl (anchor_of_alice "ORGAN" 5));
            FirstCallback (anchor_of_alice "PATIENT" 4)]
           [FirstCallback (anchor_of_alice "PATIENT" 4);
            FirstCallback (anchor_of_alice "ORGAN" 5);
            SecondCallback (inl (anchor_of_alice "PATIENT" 4))]).
  repeat constructor.
Defined.

(** X18. A sequence number is marked as seen before the message is parsed:
    when the first delivery of a sequence number cannot be parsed, no entry
    with that number is in the answer of [GET /logs], even when a later
    delivery of the same message is well-formed. *)
Theorem unparsed_delivery_hides_entry (pre post : list logs_event)
    (ev : logs_event) (bad : TopicMessage) (w : list ParsedMessage) :
  delivery ev = Some bad ->
  parseTopicMessage bad = None ->
  (forall e m, In e pre -> delivery e = Some m ->
               sequenceNumber m <> sequenceNumber bad) ->
  logs_window (pre ++ ev :: post) = Some w ->
  ~ In (seq_string (sequenceNumber bad)) (map pm_sequenceNumber w).
Proof.
  intros Hev Hbad Hpre Hw.
  set (s := seq_string (sequenceNumber bad)).
  pose (Q := fun p : ParsedMessage => pm_sequenceNumber p <> s).
  (* a delivery either repeats a number already seen or brings another one *)
  assert (Hh : forall st msg,
            (s ∈ seenSequenceNumbers st \/ sequenceNumber msg <> sequenceNumber bad
             \/ parseTopicMessage msg = None) ->
            all_entries Q st ->
            all_entries Q (handleMessage st msg)
            /\ (s ∈ seenSequenceNumbers st -> s ∈ seenSequenceNumbers (handleMessage st msg))).
  { intros st msg Hc [Hm Hs]. unfold handleMessage.
    case_bool_decide as Hin; [split; [split; assumption|auto]|].
    destruct (parseTopicMessage msg) as [p|] eqn:Hp; cbn.
    - split; [split; [|exact Hs]|intros H; apply elem_of_union_r, H].
      cbn. intros p' [Hp'|[<-|[]]]%in_app_iff; [apply Hm, Hp'|].
      unfold Q. rewrite (parse_sequence _ _ Hp). intros Heq.
      destruct Hc as [Hc|[Hc|Hc]]; [|apply Hc, seq_string_inj, Heq|discriminate].
      apply Hin. rewrite Heq. exact Hc.
    - split; [split; assumption|intros H; apply elem_of_union_r, H]. }
  assert (Hstep : forall st e,
            (s ∈ seenSequenceNumbers st
             \/ forall m, delivery e = Some m ->
                          sequenceNumber m <> sequenceNumber bad
                          \/ parseTopicMessage m = None) ->
            all_entries Q st ->
            all_entries Q (logs_step st e)
            /\ (s ∈ seenSequenceNumbers st -> s ∈ seenSequenceNumbers (logs_step st e))).
  { intros st e Hc H.
    destruct e as [msg|[msg|[err|]]| |]; cbn [logs_step].
    - refine (Hh (log_line _ st) msg _ H).
      destruct Hc as [Hc|Hc]; [left; exact Hc|right; apply Hc; reflexivity].
    - refine (Hh (log_line _ st) msg _ H).
      destruct Hc as [Hc|Hc]; [left; exact Hc|right; apply Hc; reflexivity].
    - split; [|auto]. eapply settle_entries; [| |exact H]; [reflexivity|right; right; eexists; reflexivity].
    - split; [|auto]. eapply settle_entries; [| |exact H]; [reflexivity|right; right; eexists; reflexivity].
    - split; [|auto]. eapply settle_entries; [| |exact H]; [reflexivity|right; left; reflexivity].
    - destruct (logs_timer_armed st); [|split; auto].
      split; [|auto]. eapply settle_entries; [| |exact H]; [reflexivity|right; left; reflexivity]. }
  assert (Hrun_pre : forall l st,
            (forall e m, In e l -> delivery e = Some m ->
                         sequenceNumber m <> sequenceNumber bad) ->
            all_entries Q st -> all_entries Q (fold_left logs_step l st)).
  { induction l as [|e l IH]; intros st Hl H; [exact H|].
    cbn [fold_left]. apply IH; [intros e' m Hin; apply Hl; right; exact Hin|].
    apply Hstep; [|exact H]. right. intros m Hm. left. apply (Hl e m); [left; reflexivity|exact Hm]. }
  assert (Hrun_post : forall l st,
            s ∈ seenSequenceNumbers st -> all_entries Q st ->
            all_entries Q (fold_left logs_step l st)).
  { induction l as [|e l IH]; intros st Hs H; [exact H|].
    cbn [fold_left]. destruct (Hstep st e (or_introl Hs) H) as [H1 H2].
    apply IH; [apply H2, Hs|exact H1]. }
  assert (Hbad_step : forall st,
            all_entries Q st ->
            all_entries Q (logs_step st ev)
            /\ s ∈ seenSequenceNumbers (logs_step st ev)).
  { intros st H.
    assert (Hm : forall st', all_entries Q st' ->
                 all_entries Q (handleMessage st' bad)
                 /\ s ∈ seenSequenceNumbers (handleMessage st' bad)).
    { intros st' H'. split; [apply Hh; [right; right; exact Hbad|exact H']|].
      unfold handleMessage. case_bool_decide as Hin; [exact Hin|].
      rewrite Hbad. cbn. apply elem_of_union_l, elem_of_singleton. reflexivity. }
    destruct ev as [msg|[msg|[err|]]| |]; try discriminate;
      injection Hev as ->; cbn [logs_step]; exact (Hm (log_line _ st) H). }
  unfold logs_window in Hw.
  destruct (logs_settled (logs_replay (pre ++ ev :: post))) as [[c|e]|] eqn:Hs;
    try discriminate.
  injection Hw as <-.
  assert (Hall : all_entries Q (logs_replay (pre ++ ev :: post))).
  { unfold logs_replay. rewrite <- app_assoc, fold_left_app. cbn [app fold_left].
    destruct (Hbad_step (fold_left logs_step pre logs_start)) as [H1 H2].
    - apply Hrun_pre; [exact Hpre|]. split; [intros p []|discriminate].
    - apply Hrun_post; assumption. }
  destruct Hall as [_ Hall]. specialize (Hall c Hs).
  intros Hin. apply in_map_iff in Hin. destruct Hin as (p & Hp & Hin).
  apply (Hall p); [|exact Hp].
  eapply Permutation_in; [apply array_sort_perm | exact Hin].
Qed.

Lemma unparsed_delivery_hides_entry_witness :
  exists w,
    logs_window [FirstCallback (unparsable_message 9);
                 SecondCallback (inl (anchor_of_alice "PATIENT" 9));
                 FirstCallback (anchor_of_alice "ORGAN" 10)] = Some w
    /\ length w = 1%nat
    /\ ~ In (seq_string 9) (map pm_sequenceNumber w).
Proof.
  eexists. split; [reflexivity|]. split; [reflexivity|].
  apply (unparsed_delivery_hides_entry []
           [SecondCallback (inl (anchor_of_alice "PATIENT" 9));
            FirstCallback (anchor_of_alice "ORGAN" 10)]
           (FirstCallback (unparsable_message 9)) (unparsable_message 9)).
  - reflexivity.
  - reflexivity.
  - intros e m [].
  - reflexivity.
Defined.

(** X19. When every event up to the deadline is a message that parses,
    [GET /logs] answers with [count] equal to the number of entries, which
    is the number of distinct sequence numbers delivered. *)
Theorem logs_count_is_distinct_numbers (evs : list logs_event) :
  forallb parses evs = true ->
  exists w,
    logs_window evs = Some w
    /\ get_prop (body (get_logs evs)) "count" = Some (JNum (Z.of_nat (length w)))
    /\ length w
       = size (list_to_set (map (fun m => seq_string (sequenceNumber m))
                                (delivered evs)) : gset string).
Proof.
  intros Hall. destruct (deliveries_window evs Hall) as [Hw Hin].
  eexists. split; [exact Hw|]. split.
  - rewrite (get_logs_window _ _ Hw). reflexivity.
  - assert (Hd : deduplicated (messages (fold_left logs_step evs logs_start))).
    { exact (proj1 (logs_run_inv evs _ logs_start_inv)). }
    destruct (sort_deduplicated _ Hd) as (_ & _ & _ & [Hnd _]).
    rewrite <- (length_map pm_sequenceNumber).
    rewrite <- (size_list_to_set (C := gset string))
      by (apply NoDup_ListNoDup; exact Hnd).
    f_equal. apply set_eq. intros s.
    rewrite !elem_of_list_to_set, !list_elem_of_In.
    assert (Hperm : In s (map pm_sequenceNumber
                            (array_sort by_sequence
                               (messages (fold_left logs_step evs logs_start))))
                    <-> In s (seqs (fold_left logs_step evs logs_start))).
    { unfold seqs. split; intros H; (eapply Permutation_in; [|exact H]);
        apply Permutation_map; [|symmetry]; apply array_sort_perm. }
    rewrite Hperm, Hin. unfold delivered. rewrite in_map_iff.
    split.
    + intros (ev & msg & He & Hdv & ->). exists msg. split; [reflexivity|].
      apply in_flat_map. exists ev. split; [exact He|]. rewrite Hdv. left. reflexivity.
    + intros (msg & <- & Hm). apply in_flat_map in Hm.
      destruct Hm as (ev & He & Hm). exists ev, msg.
      destruct (delivery ev) as [m|]; [|destruct Hm].
      destruct Hm as [->|[]]. auto.
Qed.

Lemma logs_count_is_distinct_numbers_witness :
  exists w,
    logs_window [FirstCallback (anchor_of_alice "PATIENT" 4);
                 SecondCallback (inl (anchor_of_alice "PATIENT" 4));
                 FirstCallback (anchor_of_alice "ORGAN" 6)] = Some w
    /\ length w = 2%nat.
Proof.
  destruct (logs_count_is_distinct_numbers
              [FirstCallback (anchor_of_alice "PATIENT" 4);
               SecondCallback (inl (anchor_of_alice "PATIENT" 4));
               FirstCallback (anchor_of_alice "ORGAN" 6)] eq_refl)
    as (w & Hw & _ & Hlen).
  exists w. split; [exact Hw|]. rewrite Hlen. vm_compute. reflexivity.
Defined.

Lemma naive_outcome (tag err : string) (req_body : jsval) (w : World) :
  try_catch
    (let* hash := js (hashData req_body) in
     let* txId := submitToHedera (tag +:+ hash) in
     ret (mkResponse 201
             (JObj [("transactionId", JStr txId); ("hash", JStr hash)])))
    (fun _ => ret (mkResponse 500 (JObj [("error", JStr err)]))) w
  = match hashData req_body, ledger_script w with
    | Some hash, Some txId :: answers =>
        (inl (mkResponse 201
                (JObj [("transactionId", JStr txId); ("hash", JStr hash)])),
         mkWorld (topic w ++ [tag +:+ hash]) (patients w) (organs w)
                 (next_id w) answers (store_script w))
    | Some _, answers =>
        (inl (mkResponse 500 (JObj [("error", JStr err)])),
         mkWorld (topic w) (patients w) (organs w) (next_id w) (tl answers)
                 (store_script w))
    | None, _ => (inl (mkResponse 500 (JObj [("error", JStr err)])), w)
    end.
Proof.
  unfold try_catch, bind, js.
  destruct (hashData req_body) as [h|]; cbn [ret throw]; [|reflexivity].
  unfold submitToHedera. destruct w as [tp ps os nid ls ss]. cbn.
  destruct ls as [|[tx|] ls]; reflexivity.
Qed.

Lemma hashData_undefined (data : jsval) :
  hashData data = None <-> data = JUndefined.
Proof.
  destruct data; cbn; split; intros H; try discriminate; try reflexivity.
  all: unfold hashData in H; cbn in H; discriminate.
Qed.

(** X20. The first version of the write path ([src/unnamed/part_002])
    answers 201 exactly when the body is not [undefined] and the
    submission succeeds, and never touches the store. On a body that holds
    exactly the three fields in the order of the later version, it anchors
    the same message as [src/test.js] does. *)
Theorem naive_write_path_anchors_only (req_body : jsval) (w : World) :
  exists rp wp ro wo,
    Naive.post_patients req_body w = (inl rp, wp)
    /\ Naive.post_organs req_body w = (inl ro, wo)
    /\ (status rp = 201%Z <-> req_body <> JUndefined /\ ledger_fails w = false)
    /\ (status ro = 201%Z <-> status rp = 201%Z)
    /\ patients wp = patients w /\ organs wp = organs w
    /\ store_script wp = store_script w
    /\ patients wo = patients w /\ organs wo = organs w
    /\ store_script wo = store_script w
    /\ (forall name bloodType age,
          req_body = patient_fields name bloodType age ->
          topic wp = topic (snd (post_patients req_body w)))
    /\ (forall type bloodType donorId,
          req_body = organ_fields type bloodType donorId ->
          topic wo = topic (snd (post_organs req_body w))).
Proof.
  unfold Naive.post_patients, Naive.post_organs. rewrite !naive_outcome.
  unfold ledger_fails.
  destruct (hashData req_body) as [h|] eqn:Hh.
  - assert (Hne : req_body <> JUndefined).
    { intros H. apply hashData_undefined in H. congruence. }
    destruct (ledger_script w) as [|[tx|] ls] eqn:Hl;
      do 4 eexists; (split; [reflexivity|]); (split; [reflexivity|]);
      cbn [status topic patients organs store_script];
      (split; [split; [intros; try discriminate; split; auto
                      |intros [_ H]; try discriminate; reflexivity]|]);
      (split; [tauto|]); repeat (split; [reflexivity|]);
      (split; [intros n b a ->|intros t b d ->]).
    all: rewrite ?post_patients_outcome, ?post_organs_outcome; cbn [has_properties patient_fields organ_fields];
      rewrite Hl; cbv zeta; try reflexivity.
    + unfold patient_digest, digest_of. cbn [p_name p_bloodType p_age].
      change (field (patient_fields n b a) "name") with n.
      change (field (patient_fields n b a) "bloodType") with b.
      change (field (patient_fields n b a) "age") with a.
      rewrite Hh. destruct (store_script w) as [|[|] ss]; reflexivity.
    + unfold organ_digest, digest_of. cbn [o_type o_bloodType o_donorId].
      change (field (organ_fields t b d) "type") with t.
      change (field (organ_fields t b d) "bloodType") with b.
      change (field (organ_fields t b d) "donorId") with d.
      rewrite Hh. destruct (store_script w) as [|[|] ss]; reflexivity.
  - do 4 eexists; (split; [reflexivity|]); (split; [reflexivity|]).
    cbn [status]. split; [split; [discriminate|intros [H _]; exfalso; apply H, hashData_undefined, Hh]|].
    split; [tauto|]. repeat (split; [reflexivity|]).
    apply hashData_undefined in Hh. split; intros ? ? ? ->; discriminate.
Qed.
